(** * spaceship-sprite: the Sprite class of [lib/src/sprite.ts]

    A shallow embedding of the [Sprite] class and the properties of its
    constructor, pixel accessors, byte export and SVG rendering.

    Conventions of the embedding.
    - A JavaScript [number] holding a dimension, a coordinate or a colour
      channel is an integer ([Z]).  The sizes of the SVG rendering are
      computed as the code computes them, in double precision: they are
      values of the type [number], whose arithmetic ([Number.add],
      [Number.mul], ...) rounds every result to the nearest double.  The
      limits of the engine on array lengths are not modelled.
    - A [Color] is an object: it has an identity ([oid]) besides its four
      channels, because [trimPallet] compares references ([!==]).  Objects
      are numbered by a counter that every computation threads.
    - A method that can throw, or that allocates, is a computation in the
      monad [M]; a method that assigns to a field of [this] returns the
      updated Sprite. *)

From stdpp Require Import base numbers list strings pretty.
From Stdlib Require Import QArith Strings.Ascii Strings.Byte Floats.SpecFloat.

Local Open Scope Z_scope.

(** ** Exceptions and the allocation monad *)

(** What the code can throw.  [Error message] is [throw new Error(message)];
    [TypeError] is what the engine throws for a method call on [undefined];
    [ValidationError field] is the failure of the validator. *)
Inductive exn : Type :=
  | ValidationError (field : string)
  | Error (message : string)
  | TypeError.

Inductive outcome (A : Type) : Type :=
  | Return (a : A)
  | Throw (e : exn).
Arguments Return {A} a.
Arguments Throw {A} e.

(** The state is the number of objects created so far by [new]; the
    identity [0] is that of the one object that exists before any of them,
    the sentinel [Color.BLACK]. *)
Definition heap : Type := nat.

Definition M (A : Type) : Type := heap → outcome A * heap.

Global Instance M_ret : MRet M := λ A a h, (Return a, h).

Global Instance M_bind : MBind M := λ A B f m h,
  match m h with
  | (Return a, h') => f a h'
  | (Throw e, h') => (Throw e, h')
  end.

Global Instance M_fmap : FMap M := λ A B f m h,
  match m h with
  | (Return a, h') => (Return (f a), h')
  | (Throw e, h') => (Throw e, h')
  end.

Global Instance M_throw : MThrow exn M := λ A e h, (Throw e, h).

(** [new] of an object: hands out the next identity, never [0]. *)
Definition alloc : M nat := λ h, (Return (S h), S h).

Global Instance outcome_ret : MRet outcome := λ A a, Return a.

Global Instance outcome_bind : MBind outcome := λ A B f m,
  match m with
  | Return a => f a
  | Throw e => Throw e
  end.

(** Template literals print an integer in decimal. *)
Definition show (n : Z) : string := pretty n.

(** ** Double precision numbers *)

(** A JavaScript number: a finite value, an infinity or NaN.  The finite
    values that the arithmetic below returns are the binary64 doubles.  The
    zero [-0] is not told apart from [0]: it prints as [0], and the only
    divisor of the class is a dimension. *)
Inductive number : Type :=
  | Num (q : Q)
  | Inf (negative : bool)
  | NaN.

Module Number.

(** The integer nearest to [num / den], for [den > 0]; a tie goes to the even
    one. *)
Definition nearest (num den : Z) : Z :=
  let fl := num `div` den in
  match 2 * (num `mod` den) ?= den with
  | Lt => fl
  | Gt => fl + 1
  | Eq => if Z.even fl then fl else fl + 1
  end.

(** The binary exponent of [n / d], for [n, d > 0]: the [e] with
    [2^e ≤ n / d < 2^(e+1)]. *)
Definition exponent (n d : Z) : Z :=
  let k := Z.log2 n - Z.log2 d in
  if (if 0 <=? k then d * 2 ^ k <=? n else d <=? n * 2 ^ (- k)) then k
  else k - 1.

(** Rounding of a rational to binary64, to nearest, ties to even: the
    significand has 53 bits, the unit in the last place is never under
    [2^-1074], and a result of magnitude [2^1024] or more is an infinity. *)
Definition round (q : Q) : number :=
  let q := Qred q in
  let n := Z.abs (Qnum q) in
  let d := Z.pos (Qden q) in
  if n =? 0 then Num 0
  else
    let u := Z.max (exponent n d - 52) (-1074) in
    let m := nearest (n * 2 ^ Z.max (- u) 0) (d * 2 ^ Z.max u 0) in
    if 2 ^ 1024 * 2 ^ Z.max (- u) 0 <=? m * 2 ^ Z.max u 0 then
      Inf (Qnum q <? 0)
    else
      Num (Qred (Z.sgn (Qnum q) * m * 2 ^ Z.max u 0
                 # Z.to_pos (2 ^ Z.max (- u) 0))).

(** The double of an integer field; the identity on every integer that a
    double holds. *)
Definition ofZ (n : Z) : number := round (inject_Z n).

Definition isZero (q : Q) : bool := Qnum q =? 0.

Definition isNegative (q : Q) : bool := Qnum q <? 0.

(** [a + b] *)
Definition add (a b : number) : number :=
  match a, b with
  | Num x, Num y => round (x + y)
  | Inf s, Inf s' => if Bool.eqb s s' then Inf s else NaN
  | Inf s, Num _ | Num _, Inf s => Inf s
  | _, _ => NaN
  end.

Definition opp (a : number) : number :=
  match a with
  | Num x => Num (- x)
  | Inf s => Inf (negb s)
  | NaN => NaN
  end.

(** [a - b] *)
Definition sub (a b : number) : number := add a (opp b).

(** [a * b] *)
Definition mul (a b : number) : number :=
  match a, b with
  | Num x, Num y => round (x * y)
  | Inf s, Inf s' => Inf (xorb s s')
  | Inf s, Num y | Num y, Inf s =>
      if isZero y then NaN else Inf (xorb s (isNegative y))
  | _, _ => NaN
  end.

(** [a / b]; a zero divisor is the [+0] of a dimension. *)
Definition div (a b : number) : number :=
  match a, b with
  | Num x, Num y =>
      if isZero y then (if isZero x then NaN else Inf (isNegative x))
      else round (x / y)
  | Inf s, Num y => Inf (xorb s (isNegative y))
  | Num _, Inf _ => Num 0
  | _, _ => NaN
  end.

(** [a % b]: the remainder of the division truncated towards zero; it has
    the sign of [a], and it is exact. *)
Definition rem (a b : number) : number :=
  match a, b with
  | Num x, Num y =>
      if isZero y then NaN
      else
        Num (Qred (x - inject_Z (Z.quot (Qnum (x / y)) (Z.pos (Qden (x / y))))
                      * y))
  | Num x, Inf _ => Num x
  | _, _ => NaN
  end.

End Number.

(** ** The collaborators of the Sprite class *)

(** The four channels of a colour, in the order of [new Color(r, g, b, a)]. *)
Definition channels : Type := Z * Z * Z * Z.

(** Modelled from the spec: the conversions of the [Color] class
    ([lib/src/color.ts] is not among the sources) that the spec names without
    defining them: the CSS colour string, the packed 32-bit integer and the
    byte-channel accessors.  Each is a function of the channels alone. *)
Class ColorConversions : Type := {
  rgbaString : channels → string;
  packedInt : channels → Z;
  alphaByteOf : channels → byte;
  redByteOf : channels → byte;
  greenByteOf : channels → byte;
  blueByteOf : channels → byte
}.

Module Color.

(** Modelled from the spec: the [Color] class, "an immutable-by-contract
    RGBA color value offering: independent copy, four-channel tuple
    extraction, a CSS color-string representation, a packed 32-bit integer
    representation, individual byte-channel accessors, and a sentinel black
    value".  An object is its identity and its four channels. *)
Record t : Type := mk {
  oid : nat;
  red : Z;
  green : Z;
  blue : Z;
  alpha : Z
}.

(** Modelled from the spec: [new Color(r, g, b, a)]. *)
Definition new (r g b a : Z) : M t :=
  i ← alloc; mret (mk i r g b a).

(** Modelled from the spec: the sentinel [Color.BLACK], one object created
    when the class is loaded (identity [0]), opaque pure black. *)
Definition BLACK : t := mk 0 0 0 0 1.

(** Modelled from the spec: [toArray()], the four-channel tuple. *)
Definition toArray (c : t) : channels := (red c, green c, blue c, alpha c).

(** Modelled from the spec: [copy()], an independent object with the same
    channels. *)
Definition copy (c : t) : M t := new (red c) (green c) (blue c) (alpha c).

(** [a !== b] on two objects: their references differ. *)
Definition strictNotEqual (a b : t) : bool := negb (oid a =? oid b)%nat.

Section Conversions.
Context `{ColorConversions}.
Definition toRgba (c : t) : string := rgbaString (toArray c).
Definition toInt (c : t) : Z := packedInt (toArray c).
Definition alphaByte (c : t) : byte := alphaByteOf (toArray c).
Definition redByte (c : t) : byte := redByteOf (toArray c).
Definition greenByte (c : t) : byte := greenByteOf (toArray c).
Definition blueByte (c : t) : byte := blueByteOf (toArray c).
End Conversions.

End Color.

Module Validator.

(** Modelled from the spec: [Validator.positiveInteger(value, name)]
    "asserts that a dimension component is a positive integer, failing
    otherwise" ([lib/src/validator.ts] is not among the sources).  The
    value is an integer by its type here. *)
Definition positiveInteger (value : Z) (name : string) : M unit :=
  if 0 <? value then mret tt else mthrow (ValidationError name).

End Validator.

(** ** Arrays and loops *)

(** [arr[i]]: [undefined] (here [None]) outside the array. *)
Definition Array_get {A} (arr : list A) (i : Z) : option A :=
  if i <? 0 then None else arr !! Z.to_nat i.

(** [arr[i] = v] for an index inside the array.  Outside it JavaScript
    would grow the array (or, for a negative index, set a property); a
    well-formed Sprite never does that after its bounds check, as
    [index_in_array] shows, and the embedding leaves the array as it is
    there. *)
Definition Array_set {A} (arr : list A) (i : Z) (v : A) : list A :=
  if i <? 0 then arr else <[Z.to_nat i := v]> arr.

(** A loop that threads an accumulator through the elements of a list. *)
Fixpoint foldM {F : Type → Type} `{!MBind F, !MRet F} {A B : Type}
    (f : B → A → F B) (b : B) (l : list A) : F B :=
  match l with
  | [] => mret b
  | a :: l => b' ← f b a; foldM f b' l
  end.

(** The double quote character, for the attribute values of the markup. *)
Definition dq : string := String "034"%char EmptyString.

Module SpriteParams.

(** [interface SpriteParams]; an optional field that is absent is [None]. *)
Record t : Type := mk {
  dim : Z * Z;
  array : option (list Color.t);
  pallet : option (list Color.t);
  horizontalSymmetry : option bool;
  colorFill : option Color.t
}.

End SpriteParams.

(** ** The Sprite class *)

Module Sprite.

Record t : Type := mk {
  _dim : Z * Z;
  _array : list Color.t;
  _pallet : list Color.t;
  _horizontalSymmetry : bool
}.

(** The message of the error thrown for a grid of the wrong length. *)
Definition DimensionMismatchError (dim : Z * Z) (len : nat) : exn :=
  Error ("Invalid array dimensions [" +:+ show dim.1 +:+ ", " +:+ show dim.2
         +:+ "] for array of length " +:+ show (Z.of_nat len)).

(** The message of the error thrown by [checkIndex]. *)
Definition IndexOutOfBoundsError (x y : Z) (dim : Z * Z) : exn :=
  Error ("Index out of bounds [" +:+ show x +:+ ", " +:+ show y
         +:+ "] when actual dimension is [" +:+ show dim.1 +:+ ", "
         +:+ show dim.2 +:+ "]").

Definition trimPallet (pallet : list Color.t) : list Color.t :=
  List.filter (λ value, Color.strictNotEqual value Color.BLACK) pallet.

Definition new (params : SpriteParams.t) : M t :=
  let dim := SpriteParams.dim params in
  Validator.positiveInteger dim.1 "dim.x" ;;
  Validator.positiveInteger dim.2 "dim.y" ;;
  color ← match SpriteParams.colorFill params with
          | None => Color.new 0 0 0 1
          | Some colorFill => mret colorFill
          end;
  arr ← match SpriteParams.array params with
        | Some array => mret array
        | None => mapM (λ _ : unit, Color.copy color)
                       (replicate (Z.to_nat (dim.1 * dim.2)) ())
        end;
  if negb (dim.1 * dim.2 =? Z.of_nat (length arr)) then
    mthrow (DimensionMismatchError dim (length arr))
  else
    mret {| _dim := dim;
            _array := arr;
            _pallet := trimPallet (default [] (SpriteParams.pallet params));
            _horizontalSymmetry :=
              default false (SpriteParams.horizontalSymmetry params) |}.

Definition dim (this : t) : Z * Z := _dim this.

Definition array (this : t) : M (list Color.t) := mapM Color.copy (_array this).

Definition pallet (this : t) : M (list Color.t) := mapM Color.copy (_pallet this).

Definition horizontalSymmetry (this : t) : bool := _horizontalSymmetry this.

Definition copy (this : t) : M t :=
  array ← array this;
  pallet ← pallet this;
  new {| SpriteParams.dim := dim this;
         SpriteParams.array := Some array;
         SpriteParams.pallet := Some pallet;
         SpriteParams.horizontalSymmetry := Some (horizontalSymmetry this);
         SpriteParams.colorFill := None |}.

Definition arrayValues (this : t) : list channels := Color.toArray <$> _array this.

Definition withinBounds (this : t) (x y : Z) : bool :=
  (0 <=? x) && (x <? (_dim this).1) && (0 <=? y) && (y <? (_dim this).2).

Definition checkIndex (this : t) (x y : Z) : M unit :=
  if negb (withinBounds this x y) then
    mthrow (IndexOutOfBoundsError x y (dim this))
  else mret tt.

Definition setPixelAt (this : t) (x y : Z) (color : Color.t) : M t :=
  checkIndex this x y ;;
  color' ← Color.copy color;
  mret {| _dim := _dim this;
          _array := Array_set (_array this) (y * (_dim this).1 + x) color';
          _pallet := _pallet this;
          _horizontalSymmetry := _horizontalSymmetry this |}.

Definition pixelAt (this : t) (x y : Z) : M Color.t :=
  checkIndex this x y ;;
  match Array_get (_array this) (y * (_dim this).1 + x) with
  | Some color => Color.copy color
  | None => mthrow TypeError
  end.

(** The result [undefined] is [None]. *)
Definition pixelAtChecked (this : t) (x y : Z) : M (option Color.t) :=
  if negb (withinBounds this x y) then mret None
  else
    match Array_get (_array this) (y * (_dim this).1 + x) with
    | Some color => Some <$> Color.copy color
    | None => mthrow TypeError
    end.

(** Returns the flag and the Sprite after the call. *)
Definition setPixelAtChecked (this : t) (x y : Z) (color : Color.t) : M (bool * t) :=
  if negb (withinBounds this x y) then mret (false, this)
  else
    color' ← Color.copy color;
    mret (true,
          {| _dim := _dim this;
             _array := Array_set (_array this) (y * (_dim this).1 + x) color';
             _pallet := _pallet this;
             _horizontalSymmetry := _horizontalSymmetry this |}).

(** *** Export formats and SVG rendering *)

Section Rendering.

Context `{ColorConversions}.

(** How the engine prints a finite size that is not an integer of
    magnitude up to [2^53]. *)
Variable fractionString : Q → string.

(** [${n}] for a size: an integer of magnitude up to [2^53] prints in
    decimal; any other finite value prints as the engine prints it. *)
Definition showNumber (n : number) : string :=
  match n with
  | Num q =>
      let r := Qred q in
      if (Qden r =? 1)%positive && (Z.abs (Qnum r) <=? 2 ^ 53) then
        show (Qnum r)
      else fractionString r
  | Inf false => "Infinity"
  | Inf true => "-Infinity"
  | NaN => "NaN"
  end.

Definition matrix (this : t) : M (list (list channels)) :=
  mapM (λ i, mapM (λ j, Color.toArray <$> pixelAt this i j)
                  (seqZ 0 (dim this).2))
       (seqZ 0 (dim this).1).

(** The [Uint32Array] starts filled with zeros; [forEach] stores the packed
    integer of each element at the index of the element, and the array keeps
    it modulo [2^32]. *)
Definition data (this : t) : list Z :=
  let result := replicate (length (_array this)) 0 in
  foldl (λ result '(index, value),
           <[index := Color.toInt value `mod` 2 ^ 32]> result)
        result (imap pair (_array this)).

(** The [Uint8Array] starts filled with zeros; a store outside it is
    ignored, like [<[_:=_]>] on a list.  The loop runs [i] over the indices
    of [_array] and advances [j] by four. *)
Definition bytes (this : t) : outcome (list byte) :=
  let result := replicate (length (_array this) * 4) x00 in
  '(_, result) ←
    foldM (λ '(j, result) i,
             match _array this !! i with
             | Some color =>
                 let result := <[(j + 0)%nat := Color.alphaByte color]> result in
                 let result := <[(j + 1)%nat := Color.redByte color]> result in
                 let result := <[(j + 2)%nat := Color.greenByte color]> result in
                 let result := <[(j + 3)%nat := Color.greenByte color]> result in
                 mret ((j + 4)%nat, result)
             | None => Throw TypeError
             end)
          (0%nat, result) (seq 0 (length (_array this)));
  mret result.

(** The opening tag that [svgExact] emits. *)
Definition svgOpen (this : t) (width height : number) (unit parameters : string) : string :=
  "<svg " +:+ parameters +:+ " width=" +:+ dq +:+ showNumber width +:+ unit
  +:+ dq +:+ " height=" +:+ dq +:+ showNumber height +:+ unit +:+ dq
  +:+ " viewBox=" +:+ dq +:+ "0, 0, " +:+ show (dim this).1 +:+ ", "
  +:+ show (dim this).2 +:+ dq +:+ ">".

(** The element that [svgExact] emits for the cell [(x, y)]. *)
Definition svgRect (x y : Z) (rgba : string) : string :=
  "<rect width=" +:+ dq +:+ "1" +:+ dq +:+ " height=" +:+ dq +:+ "1" +:+ dq
  +:+ " x=" +:+ dq +:+ show x +:+ dq +:+ " y=" +:+ dq +:+ show y +:+ dq
  +:+ " style=" +:+ dq +:+ "fill:" +:+ rgba +:+ ";" +:+ dq +:+ " />".

Definition svgExact (this : t) (width height : number) (unit parameters : string) : M string :=
  let result := svgOpen this width height unit parameters in
  result ←
    foldM (λ result x,
             foldM (λ result y,
                      color ← pixelAt this x y;
                      let rgba := Color.toRgba color in
                      mret (result +:+ svgRect x y rgba))
                   result (seqZ 0 (dim this).2))
          result (seqZ 0 (_dim this).1);
  mret (result +:+ "</svg>").

(** The two local variables [w] and [h] of [svgWidth]. *)
Definition svgWidth_wh (this : t) (width : number) : number * number :=
  let w := Number.sub (Number.add width (Number.ofZ (_dim this).1))
                      (Number.rem width (Number.ofZ (_dim this).1)) in
  let h := Number.mul (Number.div (Number.ofZ (_dim this).2)
                                  (Number.ofZ (_dim this).1)) w in
  (w, h).


Definition svgHeight (this : t) (height : number) (unit parameters : string) : M string :=
  let h := Number.sub (Number.add height (Number.ofZ (_dim this).2))
                      (Number.rem height (Number.ofZ (_dim this).2)) in
  let w := Number.mul (Number.div (Number.ofZ (_dim this).1)
                                  (Number.ofZ (_dim this).2)) h in
  svgExact this w h unit parameters.

Definition svg (this : t) (width height : number) (unit parameters : string) : M string :=
  let w := Number.sub (Number.add width (Number.ofZ (_dim this).1))
                      (Number.rem width (Number.ofZ (_dim this).1)) in
  let h := Number.sub (Number.add height (Number.ofZ (_dim this).2))
                      (Number.rem height (Number.ofZ (_dim this).2)) in
  svgExact this w h unit parameters.

Definition svgScale (this : t) (pixelSize : number) (unit parameters : string) : M string :=
  let width := Number.mul (Number.ofZ (_dim this).1) pixelSize in
  let height := Number.mul (Number.ofZ (_dim this).2) pixelSize in
  svgExact this width height unit parameters.

End Rendering.

End Sprite.

(** ** Vocabulary of the properties *)

(** The class invariant: positive dimensions and a grid of [width·height]
    cells. *)
Definition Sprite_ok (s : Sprite.t) : Prop :=
  0 < (Sprite._dim s).1 ∧ 0 < (Sprite._dim s).2 ∧
  Z.of_nat (length (Sprite._array s)) = (Sprite._dim s).1 * (Sprite._dim s).2.

(** [(x, y)] is a coordinate of the grid of [s]. *)
Definition inBounds (s : Sprite.t) (x y : Z) : Prop :=
  0 ≤ x < (Sprite._dim s).1 ∧ 0 ≤ y < (Sprite._dim s).2.

(** The channels of opaque pure black, [new Color(0, 0, 0, 1)]. *)
Definition opaqueBlack : channels := (0, 0, 0, 1).

(** [m] is the least multiple of [d] that is at least [n]. *)
Definition leastMultipleGe (d n m : Z) : Prop :=
  (d | m) ∧ n ≤ m ∧ ∀ m' : Z, (d | m') → n ≤ m' → m ≤ m'.

(** The four bytes that [bytes] writes for one cell. *)
Definition cellBytes `{ColorConversions} (color : Color.t) : list byte :=
  [Color.alphaByte color; Color.redByte color;
   Color.greenByte color; Color.greenByte color].

(** The pieces of a markup, one after the other. *)
Definition joined (pieces : list string) : string :=
  foldr String.append EmptyString pieces.

(** The element of the markup for the cell [(x, y)] of [s]. *)
Definition cellRect `{ColorConversions} (s : Sprite.t) (x y : Z) : string :=
  match Array_get (Sprite._array s) (y * (Sprite._dim s).1 + x) with
  | Some color => Sprite.svgRect x y (Color.toRgba color)
  | None => EmptyString
  end.

(** The elements of all cells, column after column: all [y] for [x = 0],
    then all [y] for [x = 1], and so on. *)
Definition svgRects `{ColorConversions} (s : Sprite.t) : list string :=
  x ← seqZ 0 (Sprite._dim s).1; cellRect s x <$> seqZ 0 (Sprite._dim s).2.

(** The program
    [black = new Color(0, 0, 0, 1); s = new Sprite({dim: [1, 1], pallet: [black]})],
    which gives [s] and [s.pallet]. *)
Definition paletteOfFreshBlack : M (Sprite.t * list Color.t) :=
  black ← Color.new 0 0 0 1;
  s ← Sprite.new {| SpriteParams.dim := (1, 1);
                    SpriteParams.array := None;
                    SpriteParams.pallet := Some [black];
                    SpriteParams.horizontalSymmetry := None;
                    SpriteParams.colorFill := None |};
  pallet ← Sprite.pallet s;
  mret (s, pallet).

(** A number as a float of the IEEE 754 specification of the standard
    library ([prec = 53], [emax = 1024]), to compare the arithmetic of
    [Number] with that specification. *)
Definition toSpecFloat (n : number) : spec_float :=
  match n with
  | Num q =>
      let r := Qred q in
      binary_normalize 53 1024 (Qnum r) (- Z.log2 (Z.pos (Qden r))) false
  | Inf negative => S754_infinity negative
  | NaN => S754_nan
  end.

(** Colours of the scenarios. *)
Definition RED : Color.t := Color.mk 1 255 0 0 1.
Definition GREEN : Color.t := Color.mk 2 0 255 0 1.
Definition BLUE : Color.t := Color.mk 3 0 0 255 1.
Definition WHITE : Color.t := Color.mk 4 255 255 255 1.

(** Conversions for the scenarios (those of the real [Color] class are not
    among the sources): the CSS string lists the channels, the packed integer
    and the bytes take each channel as it is. *)
Definition scenarioConversions : ColorConversions := {|
  rgbaString := λ '(r, g, b, a),
    "rgba(" +:+ show r +:+ ", " +:+ show g +:+ ", " +:+ show b +:+ ", "
    +:+ show a +:+ ")";
  packedInt := λ '(r, g, b, a), ((a * 256 + r) * 256 + g) * 256 + b;
  alphaByteOf := λ '(r, g, b, a), default x00 (Byte.of_N (Z.to_N a));
  redByteOf := λ '(r, g, b, a), default x00 (Byte.of_N (Z.to_N r));
  greenByteOf := λ '(r, g, b, a), default x00 (Byte.of_N (Z.to_N g));
  blueByteOf := λ '(r, g, b, a), default x00 (Byte.of_N (Z.to_N b))
|}.

(** A printer of fractions for the scenarios. *)
Definition scenarioFraction (q : Q) : string :=
  show (Qnum q) +:+ "/" +:+ show (Z.pos (Qden q)).

(** ** Running computations *)

Lemma run_bind {A B} (m : M A) (f : A → M B) (h : heap) :
  (m ≫= f) h =
  match m h with
  | (Return a, h') => f a h'
  | (Throw e, h') => (Throw e, h')
  end.
Proof. reflexivity. Qed.

Lemma run_ret {A} (a : A) (h : heap) : (mret a : M A) h = (Return a, h).
Proof. reflexivity. Qed.

Lemma run_throw {A} (e : exn) (h : heap) : (mthrow e : M A) h = (Throw e, h).
Proof. reflexivity. Qed.

Lemma run_copy (c : Color.t) (h : heap) :
  Color.copy c h =
  (Return (Color.mk (S h) (Color.red c) (Color.green c) (Color.blue c)
             (Color.alpha c)),
   S h).
Proof. reflexivity. Qed.

Lemma copy_toArray (c : Color.t) (h : heap) :
  ∃ c', Color.copy c h = (Return c', S h) ∧ Color.toArray c' = Color.toArray c.
Proof. eexists; split; [apply run_copy | reflexivity]. Qed.

Lemma foldM_cons {F : Type → Type} `{!MBind F, !MRet F} {A B : Type}
    (f : B → A → F B) (b : B) (a : A) (l : list A) :
  foldM f b (a :: l) = f b a ≫= λ b', foldM f b' l.
Proof. reflexivity. Qed.

Lemma append_assoc (s1 s2 s3 : string) : (s1 +:+ s2) +:+ s3 = s1 +:+ (s2 +:+ s3).
Proof.
  induction s1 as [|a s1 IH]; [reflexivity|].
  change (String a ((s1 +:+ s2) +:+ s3) = String a (s1 +:+ (s2 +:+ s3))).
  by rewrite IH.
Qed.

Lemma append_empty_r (s : string) : s +:+ EmptyString = s.
Proof.
  induction s as [|a s IH]; [reflexivity|].
  change (String a (s +:+ EmptyString) = String a s). by rewrite IH.
Qed.

Lemma joined_app (l1 l2 : list string) : joined (l1 ++ l2) = joined l1 +:+ joined l2.
Proof.
  induction l1 as [|p l1 IH]; [reflexivity|].
  change (p +:+ joined (l1 ++ l2) = (p +:+ joined l1) +:+ joined l2).
  by rewrite IH, append_assoc.
Qed.

(** ** Double precision arithmetic *)

(** On these operands the arithmetic of [Number] returns what the IEEE 754
    specification of the standard library returns. *)
Example div_agrees :
  toSpecFloat (Number.div (Num 7) (Num 3))
  = SFdiv 53 1024 (toSpecFloat (Num 7)) (toSpecFloat (Num 3)).
Proof. by vm_compute. Qed.

Example mul_agrees :
  toSpecFloat (Number.mul (Number.div (Num 7) (Num 3)) (Num 27))
  = SFmul 53 1024 (toSpecFloat (Number.div (Num 7) (Num 3))) (toSpecFloat (Num 27)).
Proof. by vm_compute. Qed.

Example add_agrees :
  toSpecFloat (Number.add (Number.round (1 # 10)) (Number.round (2 # 10)))
  = SFadd 53 1024 (toSpecFloat (Number.round (1 # 10)))
      (toSpecFloat (Number.round (2 # 10))).
Proof. by vm_compute. Qed.

Example sub_agrees :
  toSpecFloat (Number.sub (Num (2 ^ 60 + 2 ^ 8)) (Number.round (1 # 3)))
  = SFsub 53 1024 (toSpecFloat (Num (2 ^ 60 + 2 ^ 8)))
      (toSpecFloat (Number.round (1 # 3))).
Proof. by vm_compute. Qed.

(** Beyond [2^53] a product of integers is rounded. *)
Example mul_rounds :
  Number.mul (Num 3) (Num (2 ^ 53 - 1)) = Num 27021597764222972.
Proof. by vm_compute. Qed.

Example mul_overflows : Number.mul (Num (10 ^ 308)) (Num 10) = Inf false.
Proof. by vm_compute. Qed.

Lemma Qred_inject_Z (n : Z) : Qred (inject_Z n) = inject_Z n.
Proof.
  unfold Qred, inject_Z.
  pose proof (Z.ggcd_gcd n 1) as Hg.
  pose proof (Z.ggcd_correct_divisors n 1) as Hd.
  destruct (Z.ggcd n 1) as [g [a b]]. simpl in *.
  rewrite Z.gcd_1_r in Hg. subst g. destruct Hd as [Ha Hb].
  replace a with n by lia. replace b with 1 by lia. reflexivity.
Qed.

Lemma Qred_integer (q : Q) (n : Z) : q == inject_Z n → Qred q = inject_Z n.
Proof. intros Heq. by rewrite (Qred_complete _ _ Heq), Qred_inject_Z. Qed.

Lemma nearest_integer (num : Z) : Number.nearest num 1 = num.
Proof. unfold Number.nearest. by rewrite Z.mod_1_r, Z.div_1_r. Qed.

Lemma exponent_integer (n : Z) : 0 < n → Number.exponent n 1 = Z.log2 n.
Proof.
  intros Hn. unfold Number.exponent.
  change (Z.log2 1) with 0. rewrite Z.sub_0_r.
  pose proof (Z.log2_nonneg n). pose proof (Z.log2_spec n Hn) as [Hlo _].
  destruct (Z.leb_spec 0 (Z.log2 n)); [|lia].
  destruct (Z.leb_spec (1 * 2 ^ Z.log2 n) n); [done|lia].
Qed.

(** Every integer of magnitude up to [2^53] is a double: rounding leaves it
    as it is. *)
Lemma round_exact (q : Q) (n : Z) :
  q == inject_Z n → - 2 ^ 53 ≤ n ≤ 2 ^ 53 → Number.round q = Num (inject_Z n).
Proof.
  intros Heq Hn. unfold Number.round. rewrite (Qred_integer q n Heq).
  cbn [Qnum Qden inject_Z].
  destruct (Z.eqb_spec (Z.abs n) 0) as [H0|H0].
  { replace n with 0 by lia. reflexivity. }
  rewrite exponent_integer by lia.
  assert (Z.log2 (Z.abs n) ≤ 53) as He.
  { change 53 with (Z.log2 (2 ^ 53)). apply Z.log2_le_mono. lia. }
  pose proof (Z.log2_nonneg (Z.abs n)) as He0.
  pose proof (Z.log2_spec (Z.abs n) ltac:(lia)) as [Hlo Hhi].
  destruct (decide (Z.log2 (Z.abs n) = 53)) as [He53|He53].
  - rewrite He53 in *. assert (Z.abs n = 2 ^ 53) as Habs by lia.
    destruct (decide (0 ≤ n)).
    + replace n with (2 ^ 53) by lia. by vm_compute.
    + replace n with (- 2 ^ 53) by lia. by vm_compute.
  - set (e := Z.log2 (Z.abs n)) in *.
    rewrite (Z.max_l (e - 52) (-1074)) by lia.
    rewrite (Z.max_l (- (e - 52)) 0), (Z.max_r (e - 52) 0) by lia.
    rewrite Z.pow_0_r, !Z.mul_1_r, nearest_integer.
    assert (0 < 2 ^ (- (e - 52))) as Hpow by (apply Z.pow_pos_nonneg; lia).
    destruct (Z.leb_spec (2 ^ 1024 * 2 ^ (- (e - 52)))
                (Z.abs n * 2 ^ (- (e - 52)))) as [Hov|_].
    { assert (Z.abs n < 2 ^ 1024).
      { change (2 ^ 53) with 9007199254740992 in *.
        change (2 ^ 1024) with (9007199254740992 * 2 ^ 971).
        pose proof (Z.pow_pos_nonneg 2 971). nia. }
      nia. }
    f_equal. apply Qred_integer. unfold Qeq. cbn [Qnum Qden inject_Z].
    rewrite Z2Pos.id by lia. nia.
Qed.

Lemma ofZ_exact (n : Z) :
  - 2 ^ 53 ≤ n ≤ 2 ^ 53 → Number.ofZ n = Num (inject_Z n).
Proof. intros Hn. by apply round_exact. Qed.

Lemma add_exact (a b : Z) :
  - 2 ^ 53 ≤ a + b ≤ 2 ^ 53 →
  Number.add (Num (inject_Z a)) (Num (inject_Z b)) = Num (inject_Z (a + b)).
Proof.
  intros Hn. apply round_exact; [|done]. by rewrite inject_Z_plus.
Qed.

Lemma sub_exact (a b : Z) :
  - 2 ^ 53 ≤ a - b ≤ 2 ^ 53 →
  Number.sub (Num (inject_Z a)) (Num (inject_Z b)) = Num (inject_Z (a - b)).
Proof.
  intros Hn. apply round_exact; [|done].
  unfold Z.sub. by rewrite inject_Z_plus, inject_Z_opp.
Qed.

Lemma mul_exact (a b : Z) :
  - 2 ^ 53 ≤ a * b ≤ 2 ^ 53 →
  Number.mul (Num (inject_Z a)) (Num (inject_Z b)) = Num (inject_Z (a * b)).
Proof.
  intros Hn. apply round_exact; [|done]. by rewrite inject_Z_mult.
Qed.

(** [%] on two integers is [Z.rem], whatever their size. *)
Lemma rem_exact (a b : Z) :
  0 < b →
  Number.rem (Num (inject_Z a)) (Num (inject_Z b)) = Num (inject_Z (Z.rem a b)).
Proof.
  intros Hb. destruct b as [|p|p]; [lia| |lia].
  unfold Number.rem, Number.isZero. cbn [Qnum inject_Z Z.eqb].
  f_equal. apply Qred_integer.
  unfold Qdiv, Qinv, Qmult. cbn [Qnum Qden inject_Z Pos.mul].
  rewrite Z.mul_1_r.
  pose proof (Z.quot_rem' a (Z.pos p)) as Hqr.
  unfold Qeq, Qminus, Qplus, Qopp, Qmult. cbn [Qnum Qden inject_Z Pos.mul].
  rewrite !Pos.mul_1_l. lia.
Qed.

Lemma rounded_quot (size d : Z) :
  size + d - Z.rem size d = d * (Z.quot size d + 1).
Proof. pose proof (Z.quot_rem' size d). lia. Qed.

Lemma rounded_above (size d : Z) :
  0 < d → 0 ≤ size →
  size < size + d - Z.rem size d ≤ size + d.
Proof.
  intros Hd Hsize. pose proof (Z.rem_bound_pos size d Hsize Hd). lia.
Qed.

(** The rounding of a requested size to the grid, [size + d - (size % d)],
    is computed exactly on integers of the exact range. *)
Lemma rounded_size (size d : Z) :
  0 < d → d ≤ 2 ^ 53 → - 2 ^ 53 ≤ size → size + d ≤ 2 ^ 53 →
  Number.sub (Number.add (Num (inject_Z size)) (Number.ofZ d))
             (Number.rem (Num (inject_Z size)) (Number.ofZ d))
  = Num (inject_Z (size + d - Z.rem size d)).
Proof.
  intros Hd Hdmax Hlo Hhi.
  rewrite ofZ_exact, add_exact, rem_exact by lia.
  apply sub_exact.
  destruct (Z.le_gt_cases 0 size) as [Hpos|Hneg].
  - pose proof (Z.rem_bound_pos size d Hpos Hd). lia.
  - pose proof (Z.rem_nonpos size d ltac:(lia) ltac:(lia)).
    pose proof (Z.rem_bound_abs size d ltac:(lia)).
    rewrite rounded_quot.
    assert (Z.quot size d ≤ 0) by (apply Z.quot_le_upper_bound; lia).
    pose proof (Z.quot_rem' size d). nia.
Qed.

(** ** Bounds *)

Lemma withinBounds_spec (s : Sprite.t) (x y : Z) :
  Sprite.withinBounds s x y = true ↔ inBounds s x y.
Proof.
  unfold Sprite.withinBounds, inBounds.
  rewrite !andb_true_iff, !Z.leb_le, !Z.ltb_lt. lia.
Qed.

Lemma withinBounds_false (s : Sprite.t) (x y : Z) :
  Sprite.withinBounds s x y = false ↔ ¬ inBounds s x y.
Proof.
  rewrite <- withinBounds_spec. destruct (Sprite.withinBounds s x y); split;
    congruence.
Qed.

Lemma index_in_array (s : Sprite.t) (x y : Z) :
  Sprite_ok s → inBounds s x y →
  0 ≤ y * (Sprite._dim s).1 + x < Z.of_nat (length (Sprite._array s)).
Proof.
  intros (Hw & Hh & Hlen) [Hx Hy]. rewrite Hlen. nia.
Qed.

Lemma index_injective (s : Sprite.t) (x y x' y' : Z) :
  inBounds s x y → inBounds s x' y' →
  y * (Sprite._dim s).1 + x = y' * (Sprite._dim s).1 + x' → x = x' ∧ y = y'.
Proof.
  intros [Hx Hy] [Hx' Hy'] Heq.
  assert (y = y') by nia. subst. lia.
Qed.

Lemma Array_get_in_range {A} (arr : list A) (i : Z) :
  0 ≤ i < Z.of_nat (length arr) → ∃ a, Array_get arr i = Some a.
Proof.
  intros Hi. unfold Array_get.
  destruct (Z.ltb_spec i 0); [lia|].
  destruct (lookup_lt_is_Some_2 arr (Z.to_nat i)) as [a Ha]; [lia|]. eauto.
Qed.

Lemma Array_get_set_eq {A} (arr : list A) (i : Z) (v : A) :
  0 ≤ i < Z.of_nat (length arr) → Array_get (Array_set arr i v) i = Some v.
Proof.
  intros Hi. unfold Array_get, Array_set.
  destruct (Z.ltb_spec i 0); [lia|].
  apply list_lookup_insert_eq. lia.
Qed.

Lemma Array_get_set_ne {A} (arr : list A) (i j : Z) (v : A) :
  0 ≤ i → 0 ≤ j → i ≠ j → Array_get (Array_set arr i v) j = Array_get arr j.
Proof.
  intros Hi Hj Hne. unfold Array_get, Array_set.
  destruct (Z.ltb_spec i 0); [lia|]. destruct (Z.ltb_spec j 0); [lia|].
  apply list_lookup_insert_ne. lia.
Qed.

Lemma Array_set_length {A} (arr : list A) (i : Z) (v : A) :
  length (Array_set arr i v) = length arr.
Proof.
  unfold Array_set. destruct (i <? 0); [done|]. apply length_insert.
Qed.

(** ** Pixel access *)

Lemma checkIndex_in (s : Sprite.t) (x y : Z) (h : heap) :
  inBounds s x y → Sprite.checkIndex s x y h = (Return tt, h).
Proof.
  intros Hin. unfold Sprite.checkIndex.
  apply withinBounds_spec in Hin. rewrite Hin. reflexivity.
Qed.

Lemma checkIndex_out (s : Sprite.t) (x y : Z) (h : heap) :
  ¬ inBounds s x y →
  Sprite.checkIndex s x y h =
  (Throw (Sprite.IndexOutOfBoundsError x y (Sprite._dim s)), h).
Proof.
  intros Hout. unfold Sprite.checkIndex.
  apply withinBounds_false in Hout. rewrite Hout. reflexivity.
Qed.

Lemma pixelAt_in (s : Sprite.t) (x y : Z) :
  Sprite_ok s → inBounds s x y →
  ∃ c, Array_get (Sprite._array s) (y * (Sprite._dim s).1 + x) = Some c ∧
       ∀ h, Sprite.pixelAt s x y h = Color.copy c h.
Proof.
  intros Hok Hin.
  destruct (Array_get_in_range (Sprite._array s) _ (index_in_array s x y Hok Hin))
    as [c Hc].
  exists c. split; [done|]. intros h.
  unfold Sprite.pixelAt. rewrite run_bind, checkIndex_in by done.
  rewrite Hc. reflexivity.
Qed.

Lemma setPixelAt_in (s : Sprite.t) (x y : Z) (c : Color.t) (h : heap) :
  inBounds s x y →
  Sprite.setPixelAt s x y c h =
  (Return
     {| Sprite._dim := Sprite._dim s;
        Sprite._array :=
          Array_set (Sprite._array s) (y * (Sprite._dim s).1 + x)
            (Color.mk (S h) (Color.red c) (Color.green c) (Color.blue c)
               (Color.alpha c));
        Sprite._pallet := Sprite._pallet s;
        Sprite._horizontalSymmetry := Sprite._horizontalSymmetry s |},
   S h).
Proof.
  intros Hin. unfold Sprite.setPixelAt.
  rewrite run_bind, checkIndex_in by done. reflexivity.
Qed.

Lemma setPixelAt_ok (s s' : Sprite.t) (x y : Z) (c : Color.t) (h h' : heap) :
  Sprite_ok s → Sprite.setPixelAt s x y c h = (Return s', h') → Sprite_ok s'.
Proof.
  intros Hok Hrun.
  destruct (decide (inBounds s x y)) as [Hin|Hout].
  - rewrite setPixelAt_in in Hrun by done. injection Hrun as <- _.
    unfold Sprite_ok in *. simpl. by rewrite Array_set_length.
  - unfold Sprite.setPixelAt in Hrun.
    rewrite run_bind, checkIndex_out in Hrun by done. discriminate.
Qed.

Lemma setPixelAtChecked_ok (s s' : Sprite.t) (x y : Z) (c : Color.t) (b : bool)
    (h h' : heap) :
  Sprite_ok s → Sprite.setPixelAtChecked s x y c h = (Return (b, s'), h') →
  Sprite_ok s'.
Proof.
  intros Hok. unfold Sprite.setPixelAtChecked.
  destruct (Sprite.withinBounds s x y); simpl.
  - rewrite run_bind, run_copy, run_ret. intros [= _ <- _].
    unfold Sprite_ok in *. simpl. by rewrite Array_set_length.
  - rewrite run_ret. by intros [= _ <- _].
Qed.

(** ** Construction *)

Lemma mapM_copy (l : list Color.t) (h : heap) :
  ∃ l', mapM Color.copy l h = (Return l', (h + length l)%nat) ∧
        Color.toArray <$> l' = Color.toArray <$> l.
Proof.
  revert h. induction l as [|c l IH]; intros h.
  - exists []. split; [|done]. simpl. rewrite run_ret. f_equal. lia.
  - destruct (IH (S h)) as (l' & Hrun & Hch).
    eexists (_ :: l'). split.
    + simpl. rewrite run_bind, run_copy, run_bind, Hrun, run_ret.
      f_equal. simpl. lia.
    + rewrite !fmap_cons, Hch. reflexivity.
Qed.

Lemma fill_copies (n : nat) (color : Color.t) (h : heap) :
  ∃ l, mapM (λ _ : unit, Color.copy color) (replicate n ()) h
       = (Return l, (h + n)%nat) ∧
       length l = n ∧
       ∀ i c, l !! i = Some c → Color.toArray c = Color.toArray color.
Proof.
  revert h. induction n as [|n IH]; intros h.
  - exists []. repeat split; [|intros i c; by rewrite lookup_nil].
    simpl. rewrite run_ret. f_equal. lia.
  - destruct (IH (S h)) as (l & Hrun & Hlen & Hall).
    eexists (_ :: l). repeat split.
    + simpl. rewrite run_bind, run_copy, run_bind, Hrun, run_ret.
      f_equal. lia.
    + simpl. by rewrite Hlen.
    + intros [|i] c' Hc'; simpl in Hc'.
      * by injection Hc' as <-.
      * eauto.
Qed.

Lemma positiveInteger_pos (value : Z) (name : string) (h : heap) :
  0 < value → Validator.positiveInteger value name h = (Return tt, h).
Proof.
  intros Hpos. unfold Validator.positiveInteger.
  destruct (Z.ltb_spec 0 value); [done | lia].
Qed.

(** The constructor establishes the class invariant. *)
Lemma new_ok (params : SpriteParams.t) (s : Sprite.t) (h h' : heap) :
  Sprite.new params h = (Return s, h') →
  Sprite_ok s ∧ Sprite._dim s = SpriteParams.dim params ∧
  Sprite._pallet s = Sprite.trimPallet (default [] (SpriteParams.pallet params)) ∧
  Sprite._horizontalSymmetry s
    = default false (SpriteParams.horizontalSymmetry params).
Proof.
  destruct params as [[w ht] array pallet hs fill].
  unfold Sprite.new, Validator.positiveInteger; simpl.
  rewrite !run_bind.
  destruct (Z.ltb_spec 0 w) as [Hw|]; [|discriminate].
  rewrite run_ret, run_bind.
  destruct (Z.ltb_spec 0 ht) as [Hh|]; [|discriminate].
  rewrite run_ret, run_bind.
  assert (∃ color h1,
    match fill with Some c => mret c | None => Color.new 0 0 0 1 end h
    = (Return color, h1)) as (color & h1 & ->).
  { destruct fill; by eauto. }
  rewrite run_bind.
  destruct array as [arr|].
  - rewrite run_ret.
    destruct (Z.eqb_spec (w * ht) (Z.of_nat (length arr))) as [Hlen|]; simpl;
      [|discriminate].
    rewrite run_ret. intros [= <- _]. unfold Sprite_ok. simpl. done.
  - destruct (fill_copies (Z.to_nat (w * ht)) color h1) as (arr & -> & Hlen & _).
    destruct (Z.eqb_spec (w * ht) (Z.of_nat (length arr))) as [Hlen'|]; simpl;
      [|discriminate].
    rewrite run_ret. intros [= <- _]. unfold Sprite_ok. simpl. done.
Qed.

(** [copy()] goes through the constructor, so its result is well formed. *)
Lemma copy_ok (s s' : Sprite.t) (h h' : heap) :
  Sprite.copy s h = (Return s', h') → Sprite_ok s'.
Proof.
  unfold Sprite.copy. rewrite run_bind.
  destruct (Sprite.array s h) as [[arr|e] h1]; [|discriminate].
  rewrite run_bind.
  destruct (Sprite.pallet s h1) as [[pal|e] h2]; [|discriminate].
  intros Hnew. by apply new_ok in Hnew as [Hok _].
Qed.

(** ** The palette *)

(** [trimPallet] removes the sentinel object and nothing else. *)
Lemma trimPallet_spec (pallet : list Color.t) (c : Color.t) :
  In c (Sprite.trimPallet pallet) ↔
  In c pallet ∧ Color.oid c ≠ Color.oid Color.BLACK.
Proof.
  unfold Sprite.trimPallet. rewrite filter_In.
  unfold Color.strictNotEqual. rewrite negb_true_iff, Nat.eqb_neq. tauto.
Qed.

(** The scenario of the specification, with the sentinel itself in the
    palette. *)
Lemma trimPallet_BLACK_RED : Sprite.trimPallet [Color.BLACK; RED] = [RED].
Proof. reflexivity. Qed.

(** A colour that is not the sentinel object passes the filter, whatever its
    channels. *)
Lemma trimPallet_keeps (pallet : list Color.t) :
  (∀ c, In c pallet → Color.oid c ≠ Color.oid Color.BLACK) →
  Sprite.trimPallet pallet = pallet.
Proof.
  intros Hall. unfold Sprite.trimPallet. apply forallb_filter_id.
  apply forallb_forall. intros c Hc. unfold Color.strictNotEqual.
  apply negb_true_iff, Nat.eqb_neq. by apply Hall.
Qed.

(** An object made by [new Color] or by [copy] is never the sentinel. *)
Lemma copy_not_BLACK (c : Color.t) (h : heap) :
  ∃ c', Color.copy c h = (Return c', S h) ∧
        Color.strictNotEqual c' Color.BLACK = true.
Proof. eexists. split; [apply run_copy | reflexivity]. Qed.

(** C1. The claim is that a palette stored by the constructor holds no
    opaque pure-black entry.  The filter of [trimPallet] compares object
    references, so it misses an opaque black colour that is another object
    than the sentinel [Color.BLACK]: built with the palette
    [[new Color(0, 0, 0, 1)]], the Sprite stores that colour, and its
    [pallet] accessor returns a copy of it. *)
Theorem C1_fresh_black_kept (h : heap) :
  ∃ s c p h',
    paletteOfFreshBlack h = (Return (s, [p]), h') ∧
    Sprite._pallet s = [c] ∧
    Color.toArray c = opaqueBlack ∧
    Color.toArray p = opaqueBlack.
Proof. eexists _, _, _, _. repeat split. Qed.

(** ** Claims on pixel access *)

(** C3. For every Sprite and every in-bounds coordinate [(x, y)],
    [pixelAt(x, y)] returns a copy of the grid element stored at the linear
    index [y·width + x]; and for the (2,2) Sprite built on the row-major grid
    [RED, GREEN, BLUE, WHITE], [pixelAt] gives RED at (0,0), GREEN at (1,0),
    BLUE at (0,1) and WHITE at (1,1). *)
Theorem C3_pixelAt_row_major :
  (∀ (s : Sprite.t) (x y : Z) (h : heap),
     Sprite_ok s → 0 ≤ x < (Sprite.dim s).1 → 0 ≤ y < (Sprite.dim s).2 →
     ∃ c p,
       Sprite._array s !! Z.to_nat (y * (Sprite.dim s).1 + x) = Some c ∧
       Sprite.pixelAt s x y h = (Return p, S h) ∧
       Color.toArray p = Color.toArray c) ∧
  (∀ h : heap, ∃ s h',
     Sprite.new {| SpriteParams.dim := (2, 2);
                   SpriteParams.array := Some [RED; GREEN; BLUE; WHITE];
                   SpriteParams.pallet := None;
                   SpriteParams.horizontalSymmetry := None;
                   SpriteParams.colorFill := None |} h = (Return s, h') ∧
     ∀ h1 : heap,
       (∃ p, Sprite.pixelAt s 0 0 h1 = (Return p, S h1) ∧
             Color.toArray p = Color.toArray RED) ∧
       (∃ p, Sprite.pixelAt s 1 0 h1 = (Return p, S h1) ∧
             Color.toArray p = Color.toArray GREEN) ∧
       (∃ p, Sprite.pixelAt s 0 1 h1 = (Return p, S h1) ∧
             Color.toArray p = Color.toArray BLUE) ∧
       (∃ p, Sprite.pixelAt s 1 1 h1 = (Return p, S h1) ∧
             Color.toArray p = Color.toArray WHITE)).
Proof.
  split.
  - intros s x y h Hok Hx Hy.
    destruct (pixelAt_in s x y Hok (conj Hx Hy)) as (c & Hc & Hrun).
    pose proof (index_in_array s x y Hok (conj Hx Hy)) as Hi.
    unfold Array_get in Hc.
    destruct (Z.ltb_spec (y * (Sprite._dim s).1 + x) 0); [lia|].
    destruct (copy_toArray c h) as (p & Hp & Hch).
    exists c, p. unfold Sprite.dim. rewrite Hrun. done.
  - intros h. eexists _, _. split; [reflexivity|].
    intros h1. repeat split; eexists; (split; [reflexivity|reflexivity]).
Qed.

Lemma C3_pixelAt_row_major_witness :
  let s := Sprite.mk (3, 2) [RED; GREEN; BLUE; WHITE; RED; GREEN] [] false in
  Sprite_ok s ∧ 0 ≤ 2 < (Sprite.dim s).1 ∧ 0 ≤ 1 < (Sprite.dim s).2 ∧
  ∃ c p,
    Sprite._array s !! Z.to_nat (1 * (Sprite.dim s).1 + 2) = Some c ∧
    Sprite.pixelAt s 2 1 7%nat = (Return p, 8%nat) ∧
    Color.toArray p = Color.toArray c.
Proof.
  intros s.
  assert (Sprite_ok s) as Hok by (repeat split; reflexivity).
  assert (0 ≤ 2 < (Sprite.dim s).1) as Hx by (simpl; lia).
  assert (0 ≤ 1 < (Sprite.dim s).2) as Hy by (simpl; lia).
  split; [exact Hok|]. split; [exact Hx|]. split; [exact Hy|].
  exact (proj1 C3_pixelAt_row_major s 2 1 7%nat Hok Hx Hy).
Defined.

(** C4. For every Sprite of dimension [(w, h)] and every coordinate with [x]
    outside [0, w) or [y] outside [0, h): [pixelAt] and [setPixelAt] throw
    the index-out-of-bounds error, while [pixelAtChecked] returns
    [undefined] and [setPixelAtChecked] returns [false], without throwing
    and without changing the Sprite. *)
Theorem C4_out_of_bounds (s : Sprite.t) (x y : Z) (c : Color.t) (h : heap) :
  ¬ (0 ≤ x < (Sprite.dim s).1) ∨ ¬ (0 ≤ y < (Sprite.dim s).2) →
  Sprite.pixelAt s x y h
    = (Throw (Sprite.IndexOutOfBoundsError x y (Sprite.dim s)), h) ∧
  Sprite.setPixelAt s x y c h
    = (Throw (Sprite.IndexOutOfBoundsError x y (Sprite.dim s)), h) ∧
  Sprite.pixelAtChecked s x y h = (Return None, h) ∧
  Sprite.setPixelAtChecked s x y c h = (Return (false, s), h).
Proof.
  intros Hout.
  assert (¬ inBounds s x y) as Hnot by (unfold inBounds, Sprite.dim in *; tauto).
  repeat split.
  - unfold Sprite.pixelAt. by rewrite run_bind, checkIndex_out.
  - unfold Sprite.setPixelAt. by rewrite run_bind, checkIndex_out.
  - unfold Sprite.pixelAtChecked.
    apply withinBounds_false in Hnot. by rewrite Hnot.
  - unfold Sprite.setPixelAtChecked.
    apply withinBounds_false in Hnot. by rewrite Hnot.
Qed.

Lemma C4_out_of_bounds_witness :
  let s := Sprite.mk (2, 2) [RED; GREEN; BLUE; WHITE] [] false in
  (¬ (0 ≤ 2 < (Sprite.dim s).1) ∨ ¬ (0 ≤ 1 < (Sprite.dim s).2)) ∧
  Sprite.pixelAt s 2 1 5%nat
    = (Throw (Error "Index out of bounds [2, 1] when actual dimension is [2, 2]"),
       5%nat) ∧
  Sprite.setPixelAt s 2 1 RED 5%nat
    = (Throw (Error "Index out of bounds [2, 1] when actual dimension is [2, 2]"),
       5%nat) ∧
  Sprite.pixelAtChecked s 2 1 5%nat = (Return None, 5%nat) ∧
  Sprite.setPixelAtChecked s 2 1 RED 5%nat = (Return (false, s), 5%nat).
Proof.
  intros s.
  assert (¬ (0 ≤ 2 < (Sprite.dim s).1) ∨ ¬ (0 ≤ 1 < (Sprite.dim s).2)) as Hout
    by (left; simpl; lia).
  split; [exact Hout|].
  exact (C4_out_of_bounds s 2 1 RED 5%nat Hout).
Defined.

(** C9. For every Sprite, every in-bounds coordinate [(x, y)] and every
    colour [c]: [setPixelAt(x, y, c)] returns; afterwards [pixelAt(x, y)]
    returns a colour with the channels of [c], [pixelAt] at every other
    in-bounds coordinate returns what it returned before the write, and
    [dim], [pallet] and [horizontalSymmetry] are unchanged. *)
Theorem C9_setPixelAt_frame (s : Sprite.t) (x y : Z) (c : Color.t) (h : heap) :
  Sprite_ok s → 0 ≤ x < (Sprite.dim s).1 → 0 ≤ y < (Sprite.dim s).2 →
  ∃ s',
    Sprite.setPixelAt s x y c h = (Return s', S h) ∧
    Sprite_ok s' ∧
    (∀ h1, ∃ p, Sprite.pixelAt s' x y h1 = (Return p, S h1) ∧
                Color.toArray p = Color.toArray c) ∧
    (∀ x' y' h1,
       0 ≤ x' < (Sprite.dim s).1 → 0 ≤ y' < (Sprite.dim s).2 →
       (x', y') ≠ (x, y) →
       ∃ p, Sprite.pixelAt s x' y' h1 = (Return p, S h1) ∧
            Sprite.pixelAt s' x' y' h1 = (Return p, S h1)) ∧
    Sprite.dim s' = Sprite.dim s ∧
    (∀ h1, Sprite.pallet s' h1 = Sprite.pallet s h1) ∧
    Sprite.horizontalSymmetry s' = Sprite.horizontalSymmetry s.
Proof.
  unfold Sprite.dim. intros Hok Hx Hy.
  assert (inBounds s x y) as Hin by done.
  pose proof (index_in_array s x y Hok Hin) as Hi.
  eexists. split; [by apply setPixelAt_in|].
  set (s' := Sprite.mk _ _ _ _).
  assert (Sprite_ok s') as Hok'.
  { unfold Sprite_ok, s'. simpl. by rewrite Array_set_length. }
  split; [done|]. repeat split.
  - intros h1.
    destruct (pixelAt_in s' x y Hok' Hin) as (c' & Hc' & Hrun).
    unfold s' in Hc'. simpl in Hc'. rewrite Array_get_set_eq in Hc' by done.
    injection Hc' as <-. rewrite Hrun.
    eexists. split; [apply run_copy|reflexivity].
  - intros x' y' h1 Hx' Hy' Hne.
    assert (inBounds s x' y') as Hin' by done.
    destruct (pixelAt_in s x' y' Hok Hin') as (c0 & Hc0 & Hrun0).
    destruct (pixelAt_in s' x' y' Hok' Hin') as (c1 & Hc1 & Hrun1).
    pose proof (index_in_array s x' y' Hok Hin') as Hi'.
    unfold s' in Hc1. simpl in Hc1.
    rewrite Array_get_set_ne in Hc1; [| lia | lia |].
    + rewrite Hc0 in Hc1. injection Hc1 as <-.
      rewrite Hrun0, Hrun1. eexists. split; apply run_copy.
    + intros Heq. apply Hne.
      destruct (index_injective s x y x' y' Hin Hin' Heq) as [-> ->]. done.
Qed.

Lemma C9_setPixelAt_frame_witness :
  let s := Sprite.mk (2, 2) [RED; GREEN; BLUE; WHITE] [RED] true in
  Sprite_ok s ∧ 0 ≤ 1 < (Sprite.dim s).1 ∧ 0 ≤ 0 < (Sprite.dim s).2 ∧
  ∃ s',
    Sprite.setPixelAt s 1 0 WHITE 9%nat = (Return s', 10%nat) ∧
    Sprite_ok s' ∧
    (∀ h1, ∃ p, Sprite.pixelAt s' 1 0 h1 = (Return p, S h1) ∧
                Color.toArray p = Color.toArray WHITE) ∧
    (∀ x' y' h1,
       0 ≤ x' < (Sprite.dim s).1 → 0 ≤ y' < (Sprite.dim s).2 →
       (x', y') ≠ (1, 0) →
       ∃ p, Sprite.pixelAt s x' y' h1 = (Return p, S h1) ∧
            Sprite.pixelAt s' x' y' h1 = (Return p, S h1)) ∧
    Sprite.dim s' = Sprite.dim s ∧
    (∀ h1, Sprite.pallet s' h1 = Sprite.pallet s h1) ∧
    Sprite.horizontalSymmetry s' = Sprite.horizontalSymmetry s.
Proof.
  intros s.
  assert (Sprite_ok s) as Hok by (repeat split; reflexivity).
  assert (0 ≤ 1 < (Sprite.dim s).1) as Hx by (simpl; lia).
  assert (0 ≤ 0 < (Sprite.dim s).2) as Hy by (simpl; lia).
  split; [exact Hok|]. split; [exact Hx|]. split; [exact Hy|].
  exact (C9_setPixelAt_frame s 1 0 WHITE 9%nat Hok Hx Hy).
Defined.

(** C10. For every Sprite and every coordinate [(x, y)],
    [setPixelAtChecked(x, y, c)] returns, and returns [true] if and only if
    [x] is in [0, width) and [y] in [0, height); when it returns [false] the
    Sprite (grid, dimension, palette and symmetry flag) is as it was before
    the call. *)
Theorem C10_setPixelAtChecked (s : Sprite.t) (x y : Z) (c : Color.t) (h : heap) :
  ∃ (b : bool) (s' : Sprite.t) (h' : heap),
    Sprite.setPixelAtChecked s x y c h = (Return (b, s'), h') ∧
    (b = true ↔ 0 ≤ x < (Sprite.dim s).1 ∧ 0 ≤ y < (Sprite.dim s).2) ∧
    (b = false → s' = s).
Proof.
  unfold Sprite.setPixelAtChecked, Sprite.dim.
  destruct (Sprite.withinBounds s x y) eqn:Hb; simpl.
  - apply withinBounds_spec in Hb.
    eexists true, _, _. split; [reflexivity|]. split; [done|discriminate].
  - apply withinBounds_false in Hb.
    exists false, s, h. split; [reflexivity|]. split; [|done].
    split; [discriminate|]. intros Hin. by destruct Hb.
Qed.

(** ** Claims on construction *)

(** C2. For all integers [w > 0] and [h > 0] and every fill colour, a Sprite
    built with dimension [(w, h)], no initial grid and that fill colour
    (opaque black when none is given) has, at every coordinate
    [0 ≤ x < w], [0 ≤ y < h], a pixel with the channels of the fill
    colour. *)
Theorem C2_default_fill (w ht : Z) (fill : option Color.t)
    (pallet : option (list Color.t)) (sym : option bool) (h : heap) :
  0 < w → 0 < ht →
  ∃ s h',
    Sprite.new {| SpriteParams.dim := (w, ht);
                  SpriteParams.array := None;
                  SpriteParams.pallet := pallet;
                  SpriteParams.horizontalSymmetry := sym;
                  SpriteParams.colorFill := fill |} h = (Return s, h') ∧
    Sprite.dim s = (w, ht) ∧
    ∀ x y h1, 0 ≤ x < w → 0 ≤ y < ht →
      ∃ p, Sprite.pixelAt s x y h1 = (Return p, S h1) ∧
           Color.toArray p = from_option Color.toArray opaqueBlack fill.
Proof.
  intros Hw Hh.
  set (params := SpriteParams.mk _ _ _ _ _).
  assert (∃ color h1,
    match fill with Some c => mret c | None => Color.new 0 0 0 1 end h
    = (Return color, h1) ∧
    Color.toArray color = from_option Color.toArray opaqueBlack fill)
    as (color & h1 & Hcolor & Hch).
  { destruct fill; eexists _, _; split; reflexivity. }
  destruct (fill_copies (Z.to_nat (w * ht)) color h1) as (arr & Hfill & Hlen & Hall).
  assert (Sprite.new params h =
          (Return (Sprite.mk (w, ht) arr
                     (Sprite.trimPallet (default [] pallet))
                     (default false sym)), (h1 + Z.to_nat (w * ht))%nat)) as Hnew.
  { unfold Sprite.new, params; simpl.
    rewrite run_bind, positiveInteger_pos by done.
    rewrite run_bind, positiveInteger_pos by done.
    rewrite run_bind, Hcolor, run_bind, Hfill.
    destruct (Z.eqb_spec (w * ht) (Z.of_nat (length arr))); [done | lia]. }
  eexists _, _. split; [exact Hnew|]. split; [reflexivity|].
  intros x y h2 Hx Hy.
  set (s := Sprite.mk _ _ _ _).
  assert (Sprite_ok s) as Hok by (apply (new_ok params s h _ Hnew)).
  destruct (pixelAt_in s x y Hok (conj Hx Hy)) as (c & Hc & Hrun).
  rewrite Hrun. eexists. split; [apply run_copy|].
  change (Color.toArray c = from_option Color.toArray opaqueBlack fill).
  rewrite <- Hch. unfold Array_get in Hc.
  destruct (_ <? 0); [discriminate|]. eauto.
Qed.

Lemma C2_default_fill_witness :
  0 < 3 ∧ 0 < 2 ∧
  ∃ s h',
    Sprite.new {| SpriteParams.dim := (3, 2);
                  SpriteParams.array := None;
                  SpriteParams.pallet := None;
                  SpriteParams.horizontalSymmetry := None;
                  SpriteParams.colorFill := Some GREEN |} 5%nat = (Return s, h') ∧
    Sprite.dim s = (3, 2) ∧
    ∀ x y h1, 0 ≤ x < 3 → 0 ≤ y < 2 →
      ∃ p, Sprite.pixelAt s x y h1 = (Return p, S h1) ∧
           Color.toArray p = Color.toArray GREEN.
Proof.
  assert (0 < 3) as Hw by lia. assert (0 < 2) as Hh by lia.
  split; [exact Hw|]. split; [exact Hh|].
  exact (C2_default_fill 3 2 (Some GREEN) None None 5%nat Hw Hh).
Defined.

(** C8. For all positive integer dimensions [(w, h)] and every supplied
    initial grid whose length is not [w·h], the constructor throws the
    dimension-mismatch error, whose message gives the dimensions and the
    length of the grid, and no Sprite is produced. *)
Theorem C8_dimension_mismatch (w ht : Z) (arr : list Color.t)
    (fill : option Color.t) (pallet : option (list Color.t))
    (sym : option bool) (h : heap) :
  0 < w → 0 < ht → Z.of_nat (length arr) ≠ w * ht →
  ∃ h',
    Sprite.new {| SpriteParams.dim := (w, ht);
                  SpriteParams.array := Some arr;
                  SpriteParams.pallet := pallet;
                  SpriteParams.horizontalSymmetry := sym;
                  SpriteParams.colorFill := fill |} h
    = (Throw (Error ("Invalid array dimensions [" +:+ show w +:+ ", " +:+ show ht
                     +:+ "] for array of length "
                     +:+ show (Z.of_nat (length arr)))), h').
Proof.
  intros Hw Hh Hlen.
  unfold Sprite.new; simpl.
  rewrite run_bind, positiveInteger_pos by done.
  rewrite run_bind, positiveInteger_pos by done.
  rewrite run_bind.
  assert (∃ color h1,
    match fill with Some c => mret c | None => Color.new 0 0 0 1 end h
    = (Return color, h1)) as (color & h1 & ->).
  { destruct fill; by eauto. }
  rewrite run_bind, run_ret.
  destruct (Z.eqb_spec (w * ht) (Z.of_nat (length arr))); [lia|].
  exists h1. reflexivity.
Qed.

Lemma C8_dimension_mismatch_witness :
  0 < 2 ∧ 0 < 3 ∧ Z.of_nat (length [RED; GREEN; BLUE; WHITE; RED]) ≠ 2 * 3 ∧
  ∃ h',
    Sprite.new {| SpriteParams.dim := (2, 3);
                  SpriteParams.array := Some [RED; GREEN; BLUE; WHITE; RED];
                  SpriteParams.pallet := None;
                  SpriteParams.horizontalSymmetry := None;
                  SpriteParams.colorFill := None |} 5%nat
    = (Throw (Error "Invalid array dimensions [2, 3] for array of length 5"), h').
Proof.
  assert (0 < 2) as Hw by lia. assert (0 < 3) as Hh by lia.
  assert (Z.of_nat (length [RED; GREEN; BLUE; WHITE; RED]) ≠ 2 * 3) as Hlen
    by (simpl; lia).
  split; [exact Hw|]. split; [exact Hh|]. split; [exact Hlen|].
  exact (C8_dimension_mismatch 2 3 [RED; GREEN; BLUE; WHITE; RED] None None None
           5%nat Hw Hh Hlen).
Defined.

(** ** The byte export *)

Section Bytes.

Context `{ColorConversions}.

(** Loop invariant of [bytes]: when the cells before [k] are done, [j] is
    [4·k] and [result] holds their bytes followed by the zeros not yet
    overwritten. *)
Lemma bytes_loop (arr : list Color.t) (m k : nat) (done : list byte) :
  (k + m)%nat = length arr → length done = (4 * k)%nat →
  foldM (λ '(j, result) i,
           match arr !! i with
           | Some color =>
               let result := <[(j + 0)%nat := Color.alphaByte color]> result in
               let result := <[(j + 1)%nat := Color.redByte color]> result in
               let result := <[(j + 2)%nat := Color.greenByte color]> result in
               let result := <[(j + 3)%nat := Color.greenByte color]> result in
               mret ((j + 4)%nat, result)
           | None => Throw TypeError
           end)
        ((4 * k)%nat, done ++ replicate (4 * m) x00) (seq k m)
  = Return ((4 * (k + m))%nat, done ++ concat (cellBytes <$> drop k arr)).
Proof.
  revert k done. induction m as [|m IH]; intros k done Hlen Hdone.
  - rewrite drop_ge by lia. simpl. do 2 f_equal. lia.
  - destruct (lookup_lt_is_Some_2 arr k) as [color Hcolor]; [lia|].
    rewrite (drop_S _ _ _ Hcolor).
    cbn [seq]. rewrite foldM_cons. cbv beta iota zeta. rewrite Hcolor.
    cbn [mbind outcome_bind mret outcome_ret].
    replace (4 * S m)%nat with (4 + 4 * m)%nat by lia.
    cbn [replicate Nat.add].
    rewrite !insert_app_r_alt by (rewrite ?length_insert, ?length_app; simpl; lia).
    rewrite Hdone.
    replace (4 * k + 0 - 4 * k)%nat with 0%nat by lia.
    replace (4 * k + 1 - 4 * k)%nat with 1%nat by lia.
    replace (4 * k + 2 - 4 * k)%nat with 2%nat by lia.
    replace (4 * k + 3 - 4 * k)%nat with 3%nat by lia.
    cbn [list_insert insert].
    replace (4 * k + 4)%nat with (4 * S k)%nat by lia.
    specialize (IH (S k) (done ++ cellBytes color)).
    rewrite <- (assoc_L (++)) in IH. cbn [cellBytes app] in IH.
    rewrite IH by (rewrite ?length_app; simpl; lia).
    rewrite fmap_cons. cbn [concat cellBytes app].
    rewrite <- (assoc_L (++)). cbn [app].
    do 2 f_equal. lia.
Qed.

(** C6. For every Sprite, [bytes()] returns exactly four bytes per grid
    cell, in storage order, the four bytes of a cell being its alpha, red,
    green and again green byte; the blue byte accessor has no effect on the
    result. *)
Theorem C6_bytes (s : Sprite.t) :
  Sprite.bytes s = Return (concat (cellBytes <$> Sprite._array s)) ∧
  length (concat (cellBytes <$> Sprite._array s))
    = (4 * length (Sprite._array s))%nat ∧
  (∀ i color, Sprite._array s !! i = Some color →
     ∀ k b, [Color.alphaByte color; Color.redByte color;
             Color.greenByte color; Color.greenByte color] !! k = Some b →
            concat (cellBytes <$> Sprite._array s) !! (4 * i + k)%nat = Some b) ∧
  (∀ blue' : channels → byte,
     @Sprite.bytes {| rgbaString := rgbaString; packedInt := packedInt;
                      alphaByteOf := alphaByteOf; redByteOf := redByteOf;
                      greenByteOf := greenByteOf; blueByteOf := blue' |} s
     = Sprite.bytes s).
Proof.
  assert (Sprite.bytes s = Return (concat (cellBytes <$> Sprite._array s))) as Hrun.
  { unfold Sprite.bytes.
    pose proof (bytes_loop (Sprite._array s) (length (Sprite._array s)) 0 []) as Hloop.
    rewrite drop_0 in Hloop. simpl in Hloop.
    replace (length (Sprite._array s) * 4)%nat
      with (length (Sprite._array s) + (length (Sprite._array s) +
             (length (Sprite._array s) + (length (Sprite._array s) + 0))))%nat by lia.
    rewrite Hloop by done. reflexivity. }
  split; [exact Hrun|]. split; [|split].
  - clear Hrun. induction (Sprite._array s) as [|c l IH]; [done|].
    rewrite fmap_cons. cbn [concat]. rewrite length_app, IH. simpl. lia.
  - clear Hrun. intros i. generalize (Sprite._array s). induction i as [|i IH];
      intros [|c l] color Hc k b Hk; try discriminate.
    + injection Hc as ->. rewrite fmap_cons. cbn [concat].
      rewrite lookup_app_l; [exact Hk|]. apply lookup_lt_Some in Hk. simpl in *. lia.
    + rewrite fmap_cons. cbn [concat].
      rewrite lookup_app_r by (simpl; lia).
      replace (4 * S i + k - length (cellBytes c))%nat with (4 * i + k)%nat
        by (simpl; lia).
      by apply (IH l color).
  - intros blue'. reflexivity.
Qed.

End Bytes.

(** ** SVG rendering *)

(** In a list made of blocks of [n] elements, the element [j] of the block
    [i] is at position [i·n + j]. *)
Lemma lookup_bind_blocks {A B} (f : A → list B) (n : nat) (l : list A)
    (i j : nat) (a : A) :
  (∀ a, length (f a) = n) → l !! i = Some a → (j < n)%nat →
  (l ≫= f) !! (i * n + j)%nat = f a !! j.
Proof.
  intros Hn. revert i. induction l as [|a0 l IH]; intros i Ha Hj.
  - by rewrite lookup_nil in Ha.
  - rewrite bind_cons. destruct i as [|i]; simpl in Ha.
    + injection Ha as ->. rewrite lookup_app_l by (rewrite Hn; lia). done.
    + rewrite lookup_app_r by (rewrite Hn; lia). rewrite Hn.
      replace (S i * n + j - n)%nat with (i * n + j)%nat by lia.
      by apply IH.
Qed.

Lemma length_bind_blocks {A B} (f : A → list B) (n : nat) (l : list A) :
  (∀ a, length (f a) = n) → length (l ≫= f) = (length l * n)%nat.
Proof.
  intros Hn. induction l as [|a l IH]; [done|].
  rewrite bind_cons, length_app, Hn, IH. simpl. lia.
Qed.

Section Svg.

Context `{ColorConversions}.
Variable fractionString : Q → string.

(** The inner loop, over [y], appends the elements of the column [x]. *)
Lemma svg_inner_loop (s : Sprite.t) (x : Z) (n : nat) (y0 : Z) (acc : string)
    (h : heap) :
  Sprite_ok s → 0 ≤ x < (Sprite._dim s).1 →
  0 ≤ y0 → y0 + Z.of_nat n ≤ (Sprite._dim s).2 →
  foldM (λ result y,
           color ← Sprite.pixelAt s x y;
           let rgba := Color.toRgba color in
           mret (result +:+ Sprite.svgRect x y rgba))
        acc (seqZ y0 (Z.of_nat n)) h
  = (Return (acc +:+ joined (cellRect s x <$> seqZ y0 (Z.of_nat n))), (h + n)%nat).
Proof.
  intros Hok Hx. revert y0 acc h.
  induction n as [|n IH]; intros y0 acc h Hy0 Hn.
  - rewrite seqZ_nil by lia. simpl. rewrite run_ret, append_empty_r.
    f_equal. lia.
  - rewrite seqZ_cons by lia.
    replace (Z.pred (Z.of_nat (S n))) with (Z.of_nat n) by lia.
    rewrite foldM_cons, run_bind, run_bind.
    destruct (pixelAt_in s x y0 Hok) as (c & Hc & Hrun); [split; lia|].
    rewrite Hrun, run_copy. cbv zeta. rewrite run_ret.
    rewrite IH by lia.
    rewrite fmap_cons.
    change (joined (?p :: ?l)) with (p +:+ joined l).
    rewrite append_assoc. unfold cellRect at 2. rewrite Hc.
    replace (S h + n)%nat with (h + S n)%nat by lia. reflexivity.
Qed.

(** The outer loop, over [x], appends the columns one after the other. *)
Lemma svg_outer_loop (s : Sprite.t) (n : nat) (x0 : Z) (acc : string) (h : heap) :
  Sprite_ok s → 0 ≤ x0 → x0 + Z.of_nat n ≤ (Sprite._dim s).1 →
  foldM (λ result x,
           foldM (λ result y,
                    color ← Sprite.pixelAt s x y;
                    let rgba := Color.toRgba color in
                    mret (result +:+ Sprite.svgRect x y rgba))
                 result (seqZ 0 (Sprite.dim s).2))
        acc (seqZ x0 (Z.of_nat n)) h
  = (Return (acc +:+ joined (x ← seqZ x0 (Z.of_nat n);
                             cellRect s x <$> seqZ 0 (Sprite._dim s).2)),
     (h + n * Z.to_nat (Sprite._dim s).2)%nat).
Proof.
  intros Hok. revert x0 acc h.
  induction n as [|n IH]; intros x0 acc h Hx0 Hn.
  - rewrite (seqZ_nil x0) by lia. simpl. rewrite run_ret, append_empty_r.
    f_equal. lia.
  - rewrite (seqZ_cons x0) by lia.
    replace (Z.pred (Z.of_nat (S n))) with (Z.of_nat n) by lia.
    rewrite foldM_cons, run_bind. unfold Sprite.dim.
    pose proof Hok as (_ & Hh & _).
    rewrite <- (Z2Nat.id (Sprite._dim s).2) at 1 2 by lia.
    rewrite (svg_inner_loop s x0 _ 0 acc h Hok) by (rewrite ?Z2Nat.id; lia).
    rewrite Z2Nat.id by lia.
    specialize (IH (Z.succ x0)). unfold Sprite.dim in IH. rewrite IH by lia.
    rewrite bind_cons, joined_app, append_assoc. f_equal. lia.
Qed.

(** C7. For every [w]×[h] Sprite and every requested width and height,
    [svgExact] returns the opening tag, whose [viewBox] attribute is
    ["0, 0, w, h"], followed by exactly [w·h] [<rect>] elements and the
    closing tag; the elements come in the order of an outer loop over [x] and
    an inner loop over [y]: the element of the cell [(x, y)], filled with the
    colour string of the grid element at [y·w + x], is the one at position
    [x·h + y]. *)
Theorem C7_svgExact (s : Sprite.t) (width height : number)
    (unit parameters : string)
    (h : heap) :
  Sprite_ok s →
  ∃ rects : list string,
    Sprite.svgExact fractionString s width height unit parameters h
    = (Return
         (("<svg " +:+ parameters +:+ " width=" +:+ dq
           +:+ Sprite.showNumber fractionString width +:+ unit +:+ dq
           +:+ " height=" +:+ dq
           +:+ Sprite.showNumber fractionString height +:+ unit +:+ dq
           +:+ " viewBox=" +:+ dq +:+ "0, 0, " +:+ show (Sprite.dim s).1 +:+ ", "
           +:+ show (Sprite.dim s).2 +:+ dq +:+ ">")
          +:+ joined rects +:+ "</svg>"),
       (h + length rects)%nat) ∧
    Z.of_nat (length rects) = (Sprite.dim s).1 * (Sprite.dim s).2 ∧
    ∀ x y, 0 ≤ x < (Sprite.dim s).1 → 0 ≤ y < (Sprite.dim s).2 →
      ∃ color,
        Sprite._array s !! Z.to_nat (y * (Sprite.dim s).1 + x) = Some color ∧
        rects !! Z.to_nat (x * (Sprite.dim s).2 + y)
        = Some ("<rect width=" +:+ dq +:+ "1" +:+ dq +:+ " height=" +:+ dq
                +:+ "1" +:+ dq +:+ " x=" +:+ dq +:+ show x +:+ dq +:+ " y="
                +:+ dq +:+ show y +:+ dq +:+ " style=" +:+ dq +:+ "fill:"
                +:+ Color.toRgba color +:+ ";" +:+ dq +:+ " />").
Proof.
  intros Hok. pose proof Hok as (Hw & Hh & Hlen).
  assert (∀ x, length (cellRect s x <$> seqZ 0 (Sprite._dim s).2)
               = Z.to_nat (Sprite._dim s).2) as Hblock.
  { intros x. by rewrite length_fmap, length_seqZ. }
  assert (length (svgRects s)
          = (Z.to_nat (Sprite._dim s).1 * Z.to_nat (Sprite._dim s).2)%nat) as Hrects.
  { unfold svgRects. rewrite (length_bind_blocks _ _ _ Hblock), length_seqZ. done. }
  exists (svgRects s). unfold Sprite.dim. split; [|split].
  - unfold Sprite.svgExact. rewrite run_bind.
    rewrite <- (Z2Nat.id (Sprite._dim s).1) at 1 by lia.
    rewrite (svg_outer_loop s _ 0 _ h Hok) by (rewrite ?Z2Nat.id; lia).
    rewrite Z2Nat.id by lia. rewrite run_ret, Hrects.
    rewrite append_assoc. reflexivity.
  - rewrite Hrects. nia.
  - intros x y Hx Hy.
    destruct (pixelAt_in s x y Hok (conj Hx Hy)) as (c & Hc & _).
    exists c. split.
    + unfold Array_get in Hc. by destruct (_ <? 0).
    + replace (Z.to_nat (x * (Sprite._dim s).2 + y))
        with (Z.to_nat x * Z.to_nat (Sprite._dim s).2 + Z.to_nat y)%nat by nia.
      unfold svgRects.
      rewrite (lookup_bind_blocks _ _ _ _ _ x Hblock) by
        (try (apply lookup_seqZ; lia); lia).
      rewrite list_lookup_fmap, lookup_seqZ_lt by lia.
      rewrite Z2Nat.id, Z.add_0_l by lia. simpl. unfold cellRect. by rewrite Hc.
Qed.



End Svg.

(** ** Scenarios of the rendering claims *)

Lemma C7_svgExact_witness :
  let s := Sprite.mk (2, 2) [RED; GREEN; BLUE; WHITE] [] false in
  Sprite_ok s ∧
  ∃ rects : list string,
    @Sprite.svgExact scenarioConversions scenarioFraction s (Num 20) (Num 30)
      "px" EmptyString 5%nat
    = (Return
         (("<svg " +:+ EmptyString +:+ " width=" +:+ dq
           +:+ Sprite.showNumber scenarioFraction (Num 20) +:+ "px" +:+ dq
           +:+ " height=" +:+ dq
           +:+ Sprite.showNumber scenarioFraction (Num 30) +:+ "px" +:+ dq
           +:+ " viewBox=" +:+ dq +:+ "0, 0, " +:+ show (Sprite.dim s).1 +:+ ", "
           +:+ show (Sprite.dim s).2 +:+ dq +:+ ">")
          +:+ joined rects +:+ "</svg>"),
       (5 + length rects)%nat) ∧
    Z.of_nat (length rects) = (Sprite.dim s).1 * (Sprite.dim s).2 ∧
    ∀ x y, 0 ≤ x < (Sprite.dim s).1 → 0 ≤ y < (Sprite.dim s).2 →
      ∃ color,
        Sprite._array s !! Z.to_nat (y * (Sprite.dim s).1 + x) = Some color ∧
        rects !! Z.to_nat (x * (Sprite.dim s).2 + y)
        = Some ("<rect width=" +:+ dq +:+ "1" +:+ dq +:+ " height=" +:+ dq
                +:+ "1" +:+ dq +:+ " x=" +:+ dq +:+ show x +:+ dq +:+ " y="
                +:+ dq +:+ show y +:+ dq +:+ " style=" +:+ dq +:+ "fill:"
                +:+ @Color.toRgba scenarioConversions color +:+ ";" +:+ dq
                +:+ " />").
Proof.
  intros s.
  assert (Sprite_ok s) as Hok by (repeat split; reflexivity).
  split; [exact Hok|].
  exact (@C7_svgExact scenarioConversions scenarioFraction s (Num 20) (Num 30)
           "px" EmptyString 5%nat Hok).
Defined.



(** * Further properties of the class *)

(** ** Construction, accessors and [copy] *)

(** The copies made by [mapM Color.copy] keep the channels, in order, and
    are objects numbered after the counter at the call. *)
Lemma mapM_copy_fresh (l : list Color.t) (h : heap) :
  ∃ l', mapM Color.copy l h = (Return l', (h + length l)%nat) ∧
        Color.toArray <$> l' = Color.toArray <$> l ∧
        ∀ c', In c' l' → (h < Color.oid c')%nat.
Proof.
  revert h. induction l as [|c l IH]; intros h.
  - exists []. split; [|split; [done|intros c' []]].
    simpl. rewrite run_ret. f_equal. lia.
  - destruct (IH (S h)) as (l' & Hrun & Hch & Hfresh).
    eexists (_ :: l'). split; [|split].
    + simpl. rewrite run_bind, run_copy, run_bind, Hrun, run_ret.
      f_equal. simpl. lia.
    + rewrite !fmap_cons, Hch. reflexivity.
    + intros c' [<-|Hin]; [simpl; lia|]. apply Hfresh in Hin. lia.
Qed.

Lemma filter_sublist {A} (f : A → bool) (l : list A) : sublist (List.filter f l) l.
Proof.
  induction l as [|a l IH]; [constructor|].
  simpl. destruct (f a); by constructor.
Qed.

(** X1. The constructor validates the dimension before anything else: with
    a width that is not positive it throws the validation error of [dim.x],
    with a positive width and a height that is not positive that of [dim.y],
    whatever grid, palette, flag and fill colour come with it, and it creates
    no object. *)
Theorem constructor_validation (params : SpriteParams.t) (h : heap) :
  (SpriteParams.dim params).1 ≤ 0 ∨ (SpriteParams.dim params).2 ≤ 0 →
  Sprite.new params h
  = (Throw (ValidationError (if decide ((SpriteParams.dim params).1 ≤ 0)
                             then "dim.x" else "dim.y")), h).
Proof.
  intros Hbad. unfold Sprite.new, Validator.positiveInteger.
  rewrite run_bind.
  destruct (Z.ltb_spec 0 (SpriteParams.dim params).1) as [Hw|Hw].
  - rewrite run_ret, run_bind.
    destruct (Z.ltb_spec 0 (SpriteParams.dim params).2) as [Hh|Hh]; [lia|].
    rewrite run_throw. by destruct (decide _); [lia|].
  - rewrite run_throw. by destruct (decide _); [|lia].
Qed.

Lemma constructor_validation_witness :
  let params := SpriteParams.mk (2, 0) (Some [RED]) None None None in
  ((SpriteParams.dim params).1 ≤ 0 ∨ (SpriteParams.dim params).2 ≤ 0) ∧
  Sprite.new params 3%nat = (Throw (ValidationError "dim.y"), 3%nat).
Proof.
  intros params.
  assert ((SpriteParams.dim params).1 ≤ 0 ∨ (SpriteParams.dim params).2 ≤ 0)
    as Hbad by (right; simpl; lia).
  split; [exact Hbad|].
  exact (constructor_validation params 3%nat Hbad).
Defined.

(** The run of the constructor on a grid of the right length. *)
Lemma new_supplied_grid (w ht : Z) (arr : list Color.t)
    (fill : option Color.t) (pallet : option (list Color.t))
    (sym : option bool) (h : heap) :
  0 < w → 0 < ht → Z.of_nat (length arr) = w * ht →
  Sprite.new {| SpriteParams.dim := (w, ht);
                SpriteParams.array := Some arr;
                SpriteParams.pallet := pallet;
                SpriteParams.horizontalSymmetry := sym;
                SpriteParams.colorFill := fill |} h
  = (Return {| Sprite._dim := (w, ht);
               Sprite._array := arr;
               Sprite._pallet := Sprite.trimPallet (default [] pallet);
               Sprite._horizontalSymmetry := default false sym |},
     match fill with Some _ => h | None => S h end).
Proof.
  intros Hw Hh Hlen. unfold Sprite.new; simpl.
  rewrite run_bind, positiveInteger_pos by done.
  rewrite run_bind, positiveInteger_pos by done.
  rewrite run_bind.
  destruct fill as [c|].
  - rewrite run_ret. cbv beta. rewrite run_bind, run_ret. cbv beta.
    destruct (Z.eqb_spec (w * ht) (Z.of_nat (length arr))); [done|lia].
  - change (Color.new 0 0 0 1 h) with (Return (Color.mk (S h) 0 0 0 1), S h).
    cbv beta iota. rewrite run_bind, run_ret. cbv beta.
    destruct (Z.eqb_spec (w * ht) (Z.of_nat (length arr))); [done|lia].
Qed.

(** X2. With positive dimensions and a supplied grid of exactly [w·h]
    elements the constructor returns a Sprite that stores the grid as it was
    given, without copying its elements, the trimmed palette and the flag
    ([false] when none is given); the only object it creates is the default
    fill colour, when no fill colour is given. *)
Theorem constructor_supplied_grid (w ht : Z) (arr : list Color.t)
    (fill : option Color.t) (pallet : option (list Color.t))
    (sym : option bool) (h : heap) :
  0 < w → 0 < ht → Z.of_nat (length arr) = w * ht →
  Sprite.new {| SpriteParams.dim := (w, ht);
                SpriteParams.array := Some arr;
                SpriteParams.pallet := pallet;
                SpriteParams.horizontalSymmetry := sym;
                SpriteParams.colorFill := fill |} h
  = (Return {| Sprite._dim := (w, ht);
               Sprite._array := arr;
               Sprite._pallet := Sprite.trimPallet (default [] pallet);
               Sprite._horizontalSymmetry := default false sym |},
     match fill with Some _ => h | None => S h end).
Proof. apply new_supplied_grid. Qed.

Lemma constructor_supplied_grid_witness :
  0 < 2 ∧ 0 < 1 ∧ Z.of_nat (length [RED; Color.BLACK]) = 2 * 1 ∧
  Sprite.new {| SpriteParams.dim := (2, 1);
                SpriteParams.array := Some [RED; Color.BLACK];
                SpriteParams.pallet := Some [Color.BLACK; GREEN];
                SpriteParams.horizontalSymmetry := Some true;
                SpriteParams.colorFill := None |} 6%nat
  = (Return (Sprite.mk (2, 1) [RED; Color.BLACK] [GREEN] true), 7%nat).
Proof.
  assert (0 < 2) as Hw by lia. assert (0 < 1) as Hh by lia.
  assert (Z.of_nat (length [RED; Color.BLACK]) = 2 * 1) as Hlen by reflexivity.
  split; [exact Hw|]. split; [exact Hh|]. split; [exact Hlen|].
  exact (constructor_supplied_grid 2 1 [RED; Color.BLACK] None
           (Some [Color.BLACK; GREEN]) (Some true) 6%nat Hw Hh Hlen).
Defined.

(** X3. Every Sprite that the constructor returns has positive integer
    dimensions, the dimensions it was asked for, and a grid of exactly
    [width·height] elements. *)
Theorem constructor_invariant (params : SpriteParams.t) (s : Sprite.t)
    (h h' : heap) :
  Sprite.new params h = (Return s, h') →
  Sprite.dim s = SpriteParams.dim params ∧
  0 < (Sprite.dim s).1 ∧ 0 < (Sprite.dim s).2 ∧
  Z.of_nat (length (Sprite._array s)) = (Sprite.dim s).1 * (Sprite.dim s).2.
Proof.
  intros Hnew. apply new_ok in Hnew as ((Hw & Hh & Hlen) & Hdim & _).
  unfold Sprite.dim. done.
Qed.

Lemma constructor_invariant_witness :
  let params := SpriteParams.mk (3, 2) None None None (Some BLUE) in
  ∃ s h',
    Sprite.new params 0%nat = (Return s, h') ∧
    Sprite.dim s = (3, 2) ∧
    0 < (Sprite.dim s).1 ∧ 0 < (Sprite.dim s).2 ∧
    Z.of_nat (length (Sprite._array s)) = (Sprite.dim s).1 * (Sprite.dim s).2.
Proof.
  intros params. eexists _, _.
  assert (Sprite.new params 0%nat
          = (Return (Sprite.mk (3, 2)
                       [Color.mk 1 0 0 255 1; Color.mk 2 0 0 255 1;
                        Color.mk 3 0 0 255 1; Color.mk 4 0 0 255 1;
                        Color.mk 5 0 0 255 1; Color.mk 6 0 0 255 1] [] false),
             6%nat)) as Hnew by reflexivity.
  split; [exact Hnew|].
  exact (constructor_invariant params _ 0%nat 6%nat Hnew).
Defined.

(** X4. The palette that the constructor stores is the given palette without
    the sentinel object [Color.BLACK]: an object is stored exactly when it is
    in the given palette and is not the sentinel, and the stored objects keep
    the order they were given in. *)
Theorem constructor_palette (params : SpriteParams.t) (s : Sprite.t)
    (h h' : heap) :
  Sprite.new params h = (Return s, h') →
  (∀ c, In c (Sprite._pallet s) ↔
        In c (default [] (SpriteParams.pallet params)) ∧
        Color.oid c ≠ Color.oid Color.BLACK) ∧
  sublist (Sprite._pallet s) (default [] (SpriteParams.pallet params)).
Proof.
  intros Hnew. apply new_ok in Hnew as (_ & _ & -> & _). split.
  - intros c. apply trimPallet_spec.
  - apply filter_sublist.
Qed.

Lemma constructor_palette_witness :
  let params :=
    SpriteParams.mk (1, 1) (Some [RED]) (Some [GREEN; Color.BLACK; BLUE]) None None in
  let s := Sprite.mk (1, 1) [RED] [GREEN; BLUE] false in
  Sprite.new params 4%nat = (Return s, 5%nat) ∧
  (∀ c, In c (Sprite._pallet s) ↔
        In c [GREEN; Color.BLACK; BLUE] ∧ Color.oid c ≠ Color.oid Color.BLACK) ∧
  sublist (Sprite._pallet s) [GREEN; Color.BLACK; BLUE].
Proof.
  intros params s.
  assert (Sprite.new params 4%nat = (Return s, 5%nat)) as Hnew by reflexivity.
  split; [exact Hnew|].
  exact (constructor_palette params s 4%nat 5%nat Hnew).
Defined.

(** X5. The [array] and [pallet] accessors never throw and return
    snapshots by value: as many colours as are stored, with the same
    channels in the same order, every one of them an object made during the
    call and not a stored one. *)
Theorem accessors_snapshot (s : Sprite.t) (h : heap) :
  (∃ l, Sprite.array s h = (Return l, (h + length (Sprite._array s))%nat) ∧
        Color.toArray <$> l = Sprite.arrayValues s ∧
        ∀ c, In c l → (h < Color.oid c)%nat) ∧
  (∃ l, Sprite.pallet s h = (Return l, (h + length (Sprite._pallet s))%nat) ∧
        Color.toArray <$> l = Color.toArray <$> Sprite._pallet s ∧
        ∀ c, In c l → (h < Color.oid c)%nat).
Proof.
  split; unfold Sprite.array, Sprite.pallet, Sprite.arrayValues;
    apply mapM_copy_fresh.
Qed.

(** X6. [copy()] of a well-formed Sprite returns a well-formed Sprite with
    the same dimension, the same channels in every grid cell and in every
    palette entry, and the same flag; all its colours are objects made during
    the call. *)
Theorem copy_preserves (s : Sprite.t) (h : heap) :
  Sprite_ok s →
  ∃ s' h',
    Sprite.copy s h = (Return s', h') ∧
    Sprite_ok s' ∧
    Sprite.dim s' = Sprite.dim s ∧
    Sprite.arrayValues s' = Sprite.arrayValues s ∧
    Color.toArray <$> Sprite._pallet s' = Color.toArray <$> Sprite._pallet s ∧
    Sprite.horizontalSymmetry s' = Sprite.horizontalSymmetry s ∧
    ∀ c, In c (Sprite._array s') ∨ In c (Sprite._pallet s') →
         (h < Color.oid c)%nat.
Proof.
  intros (Hw & Hh & Hlen).
  destruct (mapM_copy_fresh (Sprite._array s) h) as (arr & Harr & Hach & Hafresh).
  destruct (mapM_copy_fresh (Sprite._pallet s) (h + length (Sprite._array s))%nat)
    as (pal & Hpal & Hpch & Hpfresh).
  assert (length arr = length (Sprite._array s)) as Hlen'.
  { apply (f_equal length) in Hach. by rewrite !length_fmap in Hach. }
  assert (Sprite.trimPallet pal = pal) as Htrim.
  { apply trimPallet_keeps. intros c Hc. apply Hpfresh in Hc. simpl. lia. }
  exists (Sprite.mk (Sprite._dim s) arr pal (Sprite._horizontalSymmetry s)).
  eexists. split.
  - unfold Sprite.copy, Sprite.array, Sprite.pallet.
    rewrite run_bind, Harr, run_bind, Hpal.
    rewrite <- Htrim at 2. unfold Sprite.dim, Sprite.horizontalSymmetry.
    destruct (Sprite._dim s) as [w ht] eqn:Hdim. simpl in *.
    apply (new_supplied_grid w ht arr None (Some pal)
             (Some (Sprite._horizontalSymmetry s))); lia.
  - unfold Sprite_ok, Sprite.dim, Sprite.arrayValues, Sprite.horizontalSymmetry.
    simpl. rewrite Hlen'. repeat split; try done.
    intros c [Hc|Hc]; [by apply Hafresh | apply Hpfresh in Hc; lia].
Qed.

Lemma copy_preserves_witness :
  let s := Sprite.mk (2, 1) [RED; Color.BLACK] [GREEN] true in
  Sprite_ok s ∧
  ∃ s' h',
    Sprite.copy s 10%nat = (Return s', h') ∧
    Sprite_ok s' ∧
    Sprite.dim s' = Sprite.dim s ∧
    Sprite.arrayValues s' = Sprite.arrayValues s ∧
    Color.toArray <$> Sprite._pallet s' = Color.toArray <$> Sprite._pallet s ∧
    Sprite.horizontalSymmetry s' = Sprite.horizontalSymmetry s ∧
    ∀ c, In c (Sprite._array s') ∨ In c (Sprite._pallet s') →
         (10 < Color.oid c)%nat.
Proof.
  intros s.
  assert (Sprite_ok s) as Hok by (repeat split; reflexivity).
  split; [exact Hok|].
  exact (copy_preserves s 10%nat Hok).
Defined.

(** ** Reading and writing pixels *)

Lemma arrayValues_set (arr : list Color.t) (i : Z) (v : Color.t) :
  0 ≤ i →
  Color.toArray <$> Array_set arr i v
  = <[Z.to_nat i := Color.toArray v]> (Color.toArray <$> arr).
Proof.
  intros Hi. unfold Array_set. destruct (Z.ltb_spec i 0); [lia|].
  apply list_fmap_insert.
Qed.

(** The run of [setPixelAt] inside the grid, and the grid by value after
    it. *)
Lemma setPixelAt_values (s : Sprite.t) (x y : Z) (c : Color.t) (h : heap) :
  Sprite_ok s → inBounds s x y →
  ∃ s', Sprite.setPixelAt s x y c h = (Return s', S h) ∧
        Sprite_ok s' ∧ Sprite._dim s' = Sprite._dim s ∧
        Sprite._pallet s' = Sprite._pallet s ∧
        Sprite._horizontalSymmetry s' = Sprite._horizontalSymmetry s ∧
        Sprite.arrayValues s'
        = <[Z.to_nat (y * (Sprite._dim s).1 + x) := Color.toArray c]>
            (Sprite.arrayValues s).
Proof.
  intros Hok Hin. pose proof (index_in_array s x y Hok Hin) as Hi.
  eexists. split; [by apply setPixelAt_in|].
  split; [|repeat split].
  - unfold Sprite_ok in *. simpl. by rewrite Array_set_length.
  - unfold Sprite.arrayValues. simpl. rewrite arrayValues_set by lia. done.
Qed.

(** X7. Inside the grid the checked accessors do what the unchecked ones do:
    [pixelAtChecked] returns the colour that [pixelAt] returns, and
    [setPixelAtChecked] returns [true] with the Sprite that [setPixelAt]
    leaves, creating the same objects. *)
Theorem checked_agree_in_bounds (s : Sprite.t) (x y : Z) (c : Color.t) (h : heap) :
  0 ≤ x < (Sprite.dim s).1 → 0 ≤ y < (Sprite.dim s).2 →
  Sprite.pixelAtChecked s x y h = (Some <$> Sprite.pixelAt s x y) h ∧
  Sprite.setPixelAtChecked s x y c h = (pair true <$> Sprite.setPixelAt s x y c) h.
Proof.
  intros Hx Hy. assert (inBounds s x y) as Hin by done.
  pose proof (proj2 (withinBounds_spec s x y) Hin) as Hb.
  unfold Sprite.pixelAtChecked, Sprite.setPixelAtChecked, Sprite.pixelAt,
    Sprite.setPixelAt. rewrite Hb. simpl.
  unfold fmap, M_fmap. rewrite !run_bind, !checkIndex_in by done.
  split; [|done].
  by destruct (Array_get _ _).
Qed.

Lemma checked_agree_in_bounds_witness :
  let s := Sprite.mk (2, 2) [RED; GREEN; BLUE; WHITE] [] false in
  0 ≤ 1 < (Sprite.dim s).1 ∧ 0 ≤ 1 < (Sprite.dim s).2 ∧
  Sprite.pixelAtChecked s 1 1 8%nat = (Some <$> Sprite.pixelAt s 1 1) 8%nat ∧
  Sprite.setPixelAtChecked s 1 1 RED 8%nat
  = (pair true <$> Sprite.setPixelAt s 1 1 RED) 8%nat.
Proof.
  intros s.
  assert (0 ≤ 1 < (Sprite.dim s).1) as Hx by (simpl; lia).
  assert (0 ≤ 1 < (Sprite.dim s).2) as Hy by (simpl; lia).
  split; [exact Hx|]. split; [exact Hy|].
  exact (checked_agree_in_bounds s 1 1 RED 8%nat Hx Hy).
Defined.

(** X8. At every integer coordinate, [pixelAtChecked] on a well-formed
    Sprite returns: a colour exactly when the coordinate is inside the grid,
    with the channels of the grid element at [y·width + x], and [undefined]
    otherwise.  (Coordinates are integers here; the source lets a fractional
    coordinate through its bounds test.) *)
Theorem pixelAtChecked_integer (s : Sprite.t) (x y : Z) (h : heap) :
  Sprite_ok s →
  ∃ r h',
    Sprite.pixelAtChecked s x y h = (Return r, h') ∧
    (is_Some r ↔ 0 ≤ x < (Sprite.dim s).1 ∧ 0 ≤ y < (Sprite.dim s).2) ∧
    ∀ p, r = Some p →
         Sprite.arrayValues s !! Z.to_nat (y * (Sprite.dim s).1 + x)
         = Some (Color.toArray p).
Proof.
  intros Hok. unfold Sprite.dim.
  destruct (decide (inBounds s x y)) as [Hin|Hout].
  - destruct (pixelAt_in s x y Hok Hin) as (c & Hc & _).
    pose proof (index_in_array s x y Hok Hin) as Hi.
    unfold Sprite.pixelAtChecked.
    rewrite (proj2 (withinBounds_spec s x y) Hin). simpl. rewrite Hc.
    eexists _, _. split; [reflexivity|]. split; [split; [done|by eexists]|].
    intros p [= <-]. unfold Sprite.arrayValues. rewrite list_lookup_fmap.
    unfold Array_get in Hc. destruct (_ <? 0); [done|]. by rewrite Hc.
  - unfold Sprite.pixelAtChecked.
    rewrite (proj2 (withinBounds_false s x y) Hout). simpl.
    exists None, h. split; [reflexivity|]. split; [|done].
    split; [by intros [? ?]|]. intros Hin. by destruct Hout.
Qed.

Lemma pixelAtChecked_integer_witness :
  let s := Sprite.mk (2, 2) [RED; GREEN; BLUE; WHITE] [] false in
  Sprite_ok s ∧
  ∃ r h',
    Sprite.pixelAtChecked s 0 1 8%nat = (Return r, h') ∧
    (is_Some r ↔ 0 ≤ 0 < (Sprite.dim s).1 ∧ 0 ≤ 1 < (Sprite.dim s).2) ∧
    ∀ p, r = Some p →
         Sprite.arrayValues s !! Z.to_nat (1 * (Sprite.dim s).1 + 0)
         = Some (Color.toArray p).
Proof.
  intros s.
  assert (Sprite_ok s) as Hok by (repeat split; reflexivity).
  split; [exact Hok|].
  exact (pixelAtChecked_integer s 0 1 8%nat Hok).
Defined.

(** X9. [setPixelAt] inside the grid of a well-formed Sprite changes the
    grid, read by value with [arrayValues], at the index [y·width + x] only,
    where it puts the channels of the colour. *)
Theorem setPixelAt_arrayValues (s : Sprite.t) (x y : Z) (c : Color.t) (h : heap) :
  Sprite_ok s → 0 ≤ x < (Sprite.dim s).1 → 0 ≤ y < (Sprite.dim s).2 →
  ∃ s', Sprite.setPixelAt s x y c h = (Return s', S h) ∧
        Sprite.arrayValues s'
        = <[Z.to_nat (y * (Sprite.dim s).1 + x) := Color.toArray c]>
            (Sprite.arrayValues s).
Proof.
  intros Hok Hx Hy.
  destruct (setPixelAt_values s x y c h Hok (conj Hx Hy)) as (s' & Hrun & H').
  exists s'. split; [done|]. apply H'.
Qed.

Lemma setPixelAt_arrayValues_witness :
  let s := Sprite.mk (2, 2) [RED; GREEN; BLUE; WHITE] [] false in
  Sprite_ok s ∧ 0 ≤ 0 < (Sprite.dim s).1 ∧ 0 ≤ 1 < (Sprite.dim s).2 ∧
  ∃ s', Sprite.setPixelAt s 0 1 WHITE 8%nat = (Return s', 9%nat) ∧
        Sprite.arrayValues s'
        = [Color.toArray RED; Color.toArray GREEN; Color.toArray WHITE;
           Color.toArray WHITE].
Proof.
  intros s.
  assert (Sprite_ok s) as Hok by (repeat split; reflexivity).
  assert (0 ≤ 0 < (Sprite.dim s).1) as Hx by (simpl; lia).
  assert (0 ≤ 1 < (Sprite.dim s).2) as Hy by (simpl; lia).
  split; [exact Hok|]. split; [exact Hx|]. split; [exact Hy|].
  exact (setPixelAt_arrayValues s 0 1 WHITE 8%nat Hok Hx Hy).
Defined.

(** X10. The last write wins: writing a colour and then another one at the
    same coordinate leaves the same grid, by value, as writing the second
    one alone. *)
Theorem setPixelAt_overwrite (s : Sprite.t) (x y : Z) (c1 c2 : Color.t) (h : heap) :
  Sprite_ok s → 0 ≤ x < (Sprite.dim s).1 → 0 ≤ y < (Sprite.dim s).2 →
  ∃ s12 s2,
    (s1 ← Sprite.setPixelAt s x y c1; Sprite.setPixelAt s1 x y c2) h
      = (Return s12, S (S h)) ∧
    Sprite.setPixelAt s x y c2 h = (Return s2, S h) ∧
    Sprite.arrayValues s12 = Sprite.arrayValues s2.
Proof.
  intros Hok Hx Hy. assert (inBounds s x y) as Hin by done.
  destruct (setPixelAt_values s x y c1 h Hok Hin)
    as (s1 & Hrun1 & Hok1 & Hdim1 & _ & _ & Hval1).
  assert (inBounds s1 x y) as Hin1 by (unfold inBounds; by rewrite Hdim1).
  destruct (setPixelAt_values s1 x y c2 (S h) Hok1 Hin1)
    as (s12 & Hrun12 & _ & _ & _ & _ & Hval12).
  destruct (setPixelAt_values s x y c2 h Hok Hin)
    as (s2 & Hrun2 & _ & _ & _ & _ & Hval2).
  exists s12, s2. split; [by rewrite run_bind, Hrun1|]. split; [done|].
  rewrite Hval12, Hval1, Hval2, Hdim1. apply list_insert_insert_eq.
Qed.

Lemma setPixelAt_overwrite_witness :
  let s := Sprite.mk (2, 2) [RED; GREEN; BLUE; WHITE] [] false in
  Sprite_ok s ∧ 0 ≤ 1 < (Sprite.dim s).1 ∧ 0 ≤ 0 < (Sprite.dim s).2 ∧
  ∃ s12 s2,
    (s1 ← Sprite.setPixelAt s 1 0 BLUE; Sprite.setPixelAt s1 1 0 WHITE) 8%nat
      = (Return s12, 10%nat) ∧
    Sprite.setPixelAt s 1 0 WHITE 8%nat = (Return s2, 9%nat) ∧
    Sprite.arrayValues s12 = Sprite.arrayValues s2.
Proof.
  intros s.
  assert (Sprite_ok s) as Hok by (repeat split; reflexivity).
  assert (0 ≤ 1 < (Sprite.dim s).1) as Hx by (simpl; lia).
  assert (0 ≤ 0 < (Sprite.dim s).2) as Hy by (simpl; lia).
  split; [exact Hok|]. split; [exact Hx|]. split; [exact Hy|].
  exact (setPixelAt_overwrite s 1 0 BLUE WHITE 8%nat Hok Hx Hy).
Defined.

(** X11. Writes at two different coordinates of the grid commute: either
    order leaves the same grid by value. *)
Theorem setPixelAt_commute (s : Sprite.t) (x y x' y' : Z) (c c' : Color.t)
    (h : heap) :
  Sprite_ok s →
  0 ≤ x < (Sprite.dim s).1 → 0 ≤ y < (Sprite.dim s).2 →
  0 ≤ x' < (Sprite.dim s).1 → 0 ≤ y' < (Sprite.dim s).2 →
  (x, y) ≠ (x', y') →
  ∃ sa sb,
    (s1 ← Sprite.setPixelAt s x y c; Sprite.setPixelAt s1 x' y' c') h
      = (Return sa, S (S h)) ∧
    (s1 ← Sprite.setPixelAt s x' y' c'; Sprite.setPixelAt s1 x y c) h
      = (Return sb, S (S h)) ∧
    Sprite.arrayValues sa = Sprite.arrayValues sb.
Proof.
  intros Hok Hx Hy Hx' Hy' Hne.
  assert (inBounds s x y) as Hin by done.
  assert (inBounds s x' y') as Hin' by done.
  pose proof (index_in_array s x y Hok Hin) as Hi.
  pose proof (index_in_array s x' y' Hok Hin') as Hi'.
  destruct (setPixelAt_values s x y c h Hok Hin)
    as (s1 & Hrun1 & Hok1 & Hdim1 & _ & _ & Hval1).
  destruct (setPixelAt_values s x' y' c' h Hok Hin')
    as (s2 & Hrun2 & Hok2 & Hdim2 & _ & _ & Hval2).
  assert (inBounds s1 x' y') as Hin1 by (unfold inBounds; by rewrite Hdim1).
  assert (inBounds s2 x y) as Hin2 by (unfold inBounds; by rewrite Hdim2).
  destruct (setPixelAt_values s1 x' y' c' (S h) Hok1 Hin1)
    as (sa & Hruna & _ & _ & _ & _ & Hvala).
  destruct (setPixelAt_values s2 x y c (S h) Hok2 Hin2)
    as (sb & Hrunb & _ & _ & _ & _ & Hvalb).
  exists sa, sb. split; [by rewrite run_bind, Hrun1|].
  split; [by rewrite run_bind, Hrun2|].
  rewrite Hvala, Hvalb, Hval1, Hval2, Hdim1, Hdim2.
  apply list_insert_insert_ne. intros Heq. apply Hne.
  assert (y * (Sprite._dim s).1 + x = y' * (Sprite._dim s).1 + x') as Heq'
    by lia.
  by destruct (index_injective s x y x' y' Hin Hin' Heq') as [-> ->].
Qed.

Lemma setPixelAt_commute_witness :
  let s := Sprite.mk (2, 2) [RED; GREEN; BLUE; WHITE] [] false in
  Sprite_ok s ∧
  0 ≤ 0 < (Sprite.dim s).1 ∧ 0 ≤ 0 < (Sprite.dim s).2 ∧
  0 ≤ 1 < (Sprite.dim s).1 ∧ 0 ≤ 1 < (Sprite.dim s).2 ∧
  (0, 0) ≠ (1, 1) ∧
  ∃ sa sb,
    (s1 ← Sprite.setPixelAt s 0 0 WHITE; Sprite.setPixelAt s1 1 1 RED) 8%nat
      = (Return sa, 10%nat) ∧
    (s1 ← Sprite.setPixelAt s 1 1 RED; Sprite.setPixelAt s1 0 0 WHITE) 8%nat
      = (Return sb, 10%nat) ∧
    Sprite.arrayValues sa = Sprite.arrayValues sb.
Proof.
  intros s.
  assert (Sprite_ok s) as Hok by (repeat split; reflexivity).
  assert (0 ≤ 0 < (Sprite.dim s).1) as Hx by (simpl; lia).
  assert (0 ≤ 0 < (Sprite.dim s).2) as Hy by (simpl; lia).
  assert (0 ≤ 1 < (Sprite.dim s).1) as Hx' by (simpl; lia).
  assert (0 ≤ 1 < (Sprite.dim s).2) as Hy' by (simpl; lia).
  assert ((0, 0) ≠ (1, 1)) as Hne by discriminate.
  split; [exact Hok|]. split; [exact Hx|]. split; [exact Hy|].
  split; [exact Hx'|]. split; [exact Hy'|]. split; [exact Hne|].
  exact (setPixelAt_commute s 0 0 1 1 WHITE RED 8%nat Hok Hx Hy Hx' Hy' Hne).
Defined.

(** X12. Every element of the grid of a well-formed Sprite is the pixel of
    one coordinate: the element at the linear index [i] is what [pixelAt]
    returns, by value, at column [i mod width] and row [i / width]. *)
Theorem pixelAt_of_index (s : Sprite.t) (i : nat) (h : heap) :
  Sprite_ok s → (i < length (Sprite._array s))%nat →
  ∃ p,
    Sprite.pixelAt s (Z.of_nat i `mod` (Sprite.dim s).1)
      (Z.of_nat i `div` (Sprite.dim s).1) h = (Return p, S h) ∧
    Sprite.arrayValues s !! i = Some (Color.toArray p).
Proof.
  intros Hok Hi. pose proof Hok as (Hw & Hh & Hlen). unfold Sprite.dim.
  set (w := (Sprite._dim s).1) in *.
  pose proof (Z.mod_pos_bound (Z.of_nat i) w Hw) as Hmod.
  pose proof (Z.div_mod (Z.of_nat i) w ltac:(lia)) as Hdm.
  assert (0 ≤ Z.of_nat i `div` w < (Sprite._dim s).2) as Hdiv.
  { split; [apply Z.div_pos; lia|]. apply Z.div_lt_upper_bound; lia. }
  destruct (pixelAt_in s _ _ Hok (conj Hmod Hdiv)) as (c & Hc & Hrun).
  rewrite Hrun, run_copy. eexists. split; [reflexivity|].
  fold w in Hc.
  replace (Z.of_nat i `div` w * w + Z.of_nat i `mod` w) with (Z.of_nat i) in Hc
    by lia.
  unfold Array_get in Hc. destruct (Z.ltb_spec (Z.of_nat i) 0); [lia|].
  rewrite Nat2Z.id in Hc.
  unfold Sprite.arrayValues. rewrite list_lookup_fmap, Hc. reflexivity.
Qed.

Lemma pixelAt_of_index_witness :
  let s := Sprite.mk (3, 2) [RED; GREEN; BLUE; WHITE; RED; GREEN] [] false in
  Sprite_ok s ∧ (4 < length (Sprite._array s))%nat ∧
  ∃ p,
    Sprite.pixelAt s 1 1 8%nat = (Return p, 9%nat) ∧
    Sprite.arrayValues s !! 4%nat = Some (Color.toArray p).
Proof.
  intros s.
  assert (Sprite_ok s) as Hok by (repeat split; reflexivity).
  assert (4 < length (Sprite._array s))%nat as Hi by (simpl; lia).
  split; [exact Hok|]. split; [exact Hi|].
  exact (pixelAt_of_index s 4 8%nat Hok Hi).
Defined.

(** X13. Inside the grid of a well-formed Sprite [setPixelAtChecked] returns
    [true] and a well-formed Sprite whose dimension, palette and flag are
    those of before and whose grid differs, by value, at the index
    [y·width + x] only, where it has the channels of the colour. *)
Theorem setPixelAtChecked_in_bounds (s : Sprite.t) (x y : Z) (c : Color.t)
    (h : heap) :
  Sprite_ok s → 0 ≤ x < (Sprite.dim s).1 → 0 ≤ y < (Sprite.dim s).2 →
  ∃ s',
    Sprite.setPixelAtChecked s x y c h = (Return (true, s'), S h) ∧
    Sprite_ok s' ∧
    Sprite.dim s' = Sprite.dim s ∧
    Sprite._pallet s' = Sprite._pallet s ∧
    Sprite.horizontalSymmetry s' = Sprite.horizontalSymmetry s ∧
    Sprite.arrayValues s'
    = <[Z.to_nat (y * (Sprite.dim s).1 + x) := Color.toArray c]>
        (Sprite.arrayValues s).
Proof.
  intros Hok Hx Hy. assert (inBounds s x y) as Hin by done.
  destruct (setPixelAt_values s x y c h Hok Hin) as (s' & Hrun & H').
  exists s'. split; [|exact H'].
  unfold Sprite.setPixelAtChecked.
  rewrite (proj2 (withinBounds_spec s x y) Hin). simpl.
  rewrite setPixelAt_in in Hrun by done. injection Hrun as <-. reflexivity.
Qed.

Lemma setPixelAtChecked_in_bounds_witness :
  let s := Sprite.mk (2, 2) [RED; GREEN; BLUE; WHITE] [RED] true in
  Sprite_ok s ∧ 0 ≤ 1 < (Sprite.dim s).1 ∧ 0 ≤ 1 < (Sprite.dim s).2 ∧
  ∃ s',
    Sprite.setPixelAtChecked s 1 1 GREEN 8%nat = (Return (true, s'), 9%nat) ∧
    Sprite_ok s' ∧
    Sprite.dim s' = Sprite.dim s ∧
    Sprite._pallet s' = Sprite._pallet s ∧
    Sprite.horizontalSymmetry s' = Sprite.horizontalSymmetry s ∧
    Sprite.arrayValues s'
    = [Color.toArray RED; Color.toArray GREEN; Color.toArray BLUE;
       Color.toArray GREEN].
Proof.
  intros s.
  assert (Sprite_ok s) as Hok by (repeat split; reflexivity).
  assert (0 ≤ 1 < (Sprite.dim s).1) as Hx by (simpl; lia).
  assert (0 ≤ 1 < (Sprite.dim s).2) as Hy by (simpl; lia).
  split; [exact Hok|]. split; [exact Hx|]. split; [exact Hy|].
  exact (setPixelAtChecked_in_bounds s 1 1 GREEN 8%nat Hok Hx Hy).
Defined.

(** ** Bulk exports *)

(** A [mapM] whose function returns a value that does not depend on the
    counter, and advances the counter by a fixed amount. *)
Lemma mapM_values {A B} (f : A → M B) (g : A → B) (k : nat) (l : list A)
    (h : heap) :
  (∀ a h, In a l → f a h = (Return (g a), (h + k)%nat)) →
  mapM f l h = (Return (g <$> l), (h + k * length l)%nat).
Proof.
  revert h. induction l as [|a l IH]; intros h Hf.
  - simpl. rewrite run_ret. f_equal. lia.
  - simpl. rewrite run_bind, Hf by (by left).
    rewrite run_bind, IH by (intros; apply Hf; by right).
    rewrite run_ret. f_equal. lia.
Qed.

(** X14. On a well-formed Sprite [matrix()] returns [width] columns of
    [height] entries each, and the entry [y] of the column [x] is the
    channel tuple of the grid element at [y·width + x]: the matrix is indexed
    by column first, the transpose of the row-major grid. *)
Theorem matrix_columns (s : Sprite.t) (h : heap) :
  Sprite_ok s →
  ∃ m,
    Sprite.matrix s h
    = (Return m, (h + length (Sprite._array s))%nat) ∧
    Z.of_nat (length m) = (Sprite.dim s).1 ∧
    ∀ x y, 0 ≤ x < (Sprite.dim s).1 → 0 ≤ y < (Sprite.dim s).2 →
      ∃ column,
        m !! Z.to_nat x = Some column ∧
        Z.of_nat (length column) = (Sprite.dim s).2 ∧
        column !! Z.to_nat y
        = Sprite.arrayValues s !! Z.to_nat (y * (Sprite.dim s).1 + x).
Proof.
  intros Hok. pose proof Hok as (Hw & Hh & Hlen). unfold Sprite.dim.
  set (cell := λ x y : Z,
         from_option Color.toArray opaqueBlack
           (Array_get (Sprite._array s) (y * (Sprite._dim s).1 + x))).
  set (column := λ x : Z, cell x <$> seqZ 0 (Sprite._dim s).2).
  assert (∀ x h, In x (seqZ 0 (Sprite._dim s).1) →
            mapM (λ j, Color.toArray <$> Sprite.pixelAt s x j)
              (seqZ 0 (Sprite._dim s).2) h
            = (Return (column x), (h + Z.to_nat (Sprite._dim s).2)%nat))
    as Hcolumn.
  { intros x h0 Hx. apply list_elem_of_In, elem_of_seqZ in Hx.
    rewrite (mapM_values _ (cell x) 1).
    - rewrite length_seqZ. unfold column. f_equal. lia.
    - intros y h1 Hy. apply list_elem_of_In, elem_of_seqZ in Hy.
      destruct (pixelAt_in s x y Hok) as (c & Hc & Hrun); [split; lia|].
      unfold fmap, M_fmap. rewrite Hrun, run_copy. unfold cell. rewrite Hc.
      simpl. f_equal. lia. }
  exists (column <$> seqZ 0 (Sprite._dim s).1). split; [|split].
  - unfold Sprite.matrix, Sprite.dim.
    rewrite (mapM_values _ column (Z.to_nat (Sprite._dim s).2)) by done.
    rewrite length_seqZ. f_equal. nia.
  - rewrite length_fmap, length_seqZ. lia.
  - intros x y Hx Hy. exists (column x). split; [|split].
    + rewrite list_lookup_fmap, lookup_seqZ_lt by lia.
      simpl. do 2 f_equal. lia.
    + unfold column. rewrite length_fmap, length_seqZ. lia.
    + unfold column. rewrite list_lookup_fmap, lookup_seqZ_lt by lia.
      simpl. rewrite Z2Nat.id, Z.add_0_l by lia.
      destruct (pixelAt_in s x y Hok (conj Hx Hy)) as (c & Hc & _).
      unfold cell. rewrite Hc. simpl.
      unfold Sprite.arrayValues. rewrite list_lookup_fmap.
      unfold Array_get in Hc. destruct (_ <? 0); [done|]. by rewrite Hc.
Qed.

Lemma matrix_columns_witness :
  let s := Sprite.mk (2, 3) [RED; GREEN; BLUE; WHITE; RED; GREEN] [] false in
  Sprite_ok s ∧
  ∃ m,
    Sprite.matrix s 8%nat = (Return m, (8 + length (Sprite._array s))%nat) ∧
    Z.of_nat (length m) = (Sprite.dim s).1 ∧
    ∀ x y, 0 ≤ x < (Sprite.dim s).1 → 0 ≤ y < (Sprite.dim s).2 →
      ∃ column,
        m !! Z.to_nat x = Some column ∧
        Z.of_nat (length column) = (Sprite.dim s).2 ∧
        column !! Z.to_nat y
        = Sprite.arrayValues s !! Z.to_nat (y * (Sprite.dim s).1 + x).
Proof.
  intros s.
  assert (Sprite_ok s) as Hok by (repeat split; reflexivity).
  split; [exact Hok|].
  exact (matrix_columns s 8%nat Hok).
Defined.

Section MoreRendering.

Context `{ColorConversions}.
Variable fractionString : Q → string.

(** Invariant of the [forEach] of [data]: when the elements before [k] are
    stored, the array holds their integers followed by the zeros not yet
    overwritten. *)
Lemma data_loop (l : list Color.t) (stored : list Z) :
  foldl (λ result '(index, value),
           <[index := Color.toInt value `mod` 2 ^ 32]> result)
        (stored ++ replicate (length l) 0)
        (imap (λ i value, ((length stored + i)%nat, value)) l)
  = stored ++ ((λ value, Color.toInt value `mod` 2 ^ 32) <$> l).
Proof.
  revert stored. induction l as [|c l IH]; intros stored; [done|].
  rewrite imap_cons. cbn [foldl length replicate].
  rewrite Nat.add_0_r, insert_app_r_alt, Nat.sub_diag by lia.
  cbn [insert list_insert].
  specialize (IH (stored ++ [Color.toInt c `mod` 2 ^ 32])).
  rewrite <- !(assoc_L (++)) in IH. cbn [app] in IH.
  rewrite fmap_cons, <- IH. f_equal.
  apply imap_ext. intros i x _. simpl. rewrite length_app. simpl.
  f_equal. lia.
Qed.

(** X15. [data()] returns one integer per grid element, in storage order:
    the packed integer of the element reduced modulo [2^32], so every entry is
    an unsigned 32-bit value. *)
Theorem data_values (s : Sprite.t) :
  Sprite.data s
    = (λ value, Color.toInt value `mod` 2 ^ 32) <$> Sprite._array s ∧
  length (Sprite.data s) = length (Sprite._array s) ∧
  ∀ i n, Sprite.data s !! i = Some n → 0 ≤ n < 2 ^ 32.
Proof.
  assert (Sprite.data s
          = (λ value, Color.toInt value `mod` 2 ^ 32) <$> Sprite._array s) as Hdata.
  { unfold Sprite.data. apply (data_loop (Sprite._array s) []). }
  split; [exact Hdata|]. rewrite Hdata. split; [by rewrite length_fmap|].
  intros i n Hn. apply list_lookup_fmap_Some in Hn as (c & -> & _).
  apply Z.mod_pos_bound. lia.
Qed.

(** An integer size of magnitude up to [2^53] prints in decimal. *)
Lemma showNumber_inject_Z (n : Z) :
  - 2 ^ 53 ≤ n ≤ 2 ^ 53 →
  Sprite.showNumber fractionString (Num (inject_Z n)) = show n.
Proof.
  intros Hn. unfold Sprite.showNumber. rewrite Qred_inject_Z.
  cbn [Qnum Qden inject_Z]. destruct (Z.leb_spec (Z.abs n) (2 ^ 53)); [done|lia].
Qed.

(** The markup of [svgExact] on a well-formed Sprite: the opening tag, the
    elements of all cells and the closing tag. *)
Lemma svgExact_run (s : Sprite.t) (width height : number)
    (unit parameters : string) (h : heap) :
  Sprite_ok s →
  Sprite.svgExact fractionString s width height unit parameters h
  = (Return (Sprite.svgOpen fractionString s width height unit parameters
             +:+ joined (svgRects s) +:+ "</svg>"),
     (h + length (Sprite._array s))%nat).
Proof.
  intros Hok. pose proof Hok as (Hw & Hh & Hlen).
  unfold Sprite.svgExact. rewrite run_bind.
  rewrite <- (Z2Nat.id (Sprite._dim s).1) at 1 by lia.
  rewrite (svg_outer_loop s _ 0 _ h Hok) by (rewrite ?Z2Nat.id; lia).
  rewrite Z2Nat.id by lia. rewrite run_ret, append_assoc.
  unfold svgRects. f_equal. nia.
Qed.

(** X16. On a well-formed Sprite, for an integer [pixelSize] whose products
    with the grid width and height are of magnitude up to [2^53] (where the
    double products of the code are exact), [svgScale(pixelSize)] returns a
    markup whose [width] and [height] attributes are the grid width and
    height times [pixelSize], printed in decimal before the unit, whose
    [viewBox] is the grid, and whose elements are those of the cells, the same
    for every such [pixelSize] and every unit. *)
Theorem svgScale_markup (s : Sprite.t) (pixelSize : Z) (unit parameters : string)
    (h : heap) :
  Sprite_ok s →
  (Sprite.dim s).1 ≤ 2 ^ 53 → (Sprite.dim s).2 ≤ 2 ^ 53 →
  - 2 ^ 53 ≤ (Sprite.dim s).1 * pixelSize ≤ 2 ^ 53 →
  - 2 ^ 53 ≤ (Sprite.dim s).2 * pixelSize ≤ 2 ^ 53 →
  Sprite.svgScale fractionString s (Num (inject_Z pixelSize)) unit parameters h
  = (Return
       (("<svg " +:+ parameters +:+ " width=" +:+ dq
         +:+ show ((Sprite.dim s).1 * pixelSize) +:+ unit +:+ dq
         +:+ " height=" +:+ dq
         +:+ show ((Sprite.dim s).2 * pixelSize) +:+ unit +:+ dq
         +:+ " viewBox=" +:+ dq +:+ "0, 0, " +:+ show (Sprite.dim s).1 +:+ ", "
         +:+ show (Sprite.dim s).2 +:+ dq +:+ ">")
        +:+ joined (svgRects s) +:+ "</svg>"),
     (h + length (Sprite._array s))%nat).
Proof.
  intros Hok Hx Hy Hxk Hyk. pose proof Hok as (Hw & Hh & _).
  unfold Sprite.dim in *. unfold Sprite.svgScale. cbv zeta.
  rewrite svgExact_run by done. unfold Sprite.svgOpen, Sprite.dim.
  rewrite !ofZ_exact, !mul_exact by lia.
  by rewrite !showNumber_inject_Z by lia.
Qed.

(** X17. For integer requested sizes that are not negative and of the range
    where the double arithmetic of the code is exact, [svg(width, height)]
    renders at the grid width times [width ÷ dimX + 1] and the grid height
    times [height ÷ dimY + 1], each rounded on its own: the rendered width is
    strictly above the requested one and at most [dimX] above it, and
    likewise the height; the requested size itself is not rendered. *)
Theorem svg_rounding (s : Sprite.t) (width height : Z) (unit parameters : string)
    (h : heap) :
  Sprite_ok s →
  0 ≤ width → width + (Sprite.dim s).1 ≤ 2 ^ 53 →
  0 ≤ height → height + (Sprite.dim s).2 ≤ 2 ^ 53 →
  Sprite.svg fractionString s (Num (inject_Z width)) (Num (inject_Z height))
    unit parameters h
  = Sprite.svgExact fractionString s
      (Num (inject_Z ((Sprite.dim s).1 * (Z.quot width (Sprite.dim s).1 + 1))))
      (Num (inject_Z ((Sprite.dim s).2 * (Z.quot height (Sprite.dim s).2 + 1))))
      unit parameters h ∧
  width < (Sprite.dim s).1 * (Z.quot width (Sprite.dim s).1 + 1)
        ≤ width + (Sprite.dim s).1 ∧
  height < (Sprite.dim s).2 * (Z.quot height (Sprite.dim s).2 + 1)
         ≤ height + (Sprite.dim s).2.
Proof.
  intros (Hw & Hh & _) Hwidth Hwmax Hheight Hhmax. unfold Sprite.dim in *.
  split; [|split].
  - unfold Sprite.svg. cbv zeta.
    by rewrite !rounded_size, !rounded_quot by lia.
  - rewrite <- rounded_quot. by apply rounded_above.
  - rewrite <- rounded_quot. by apply rounded_above.
Qed.

(** X18. Asked for exactly [j] times the grid size, with [j ≥ 0] and
    [j + 1] times the grid size at most [2^53], [svg] renders the next scale:
    its markup is that of [svgScale(j + 1)]. *)
Theorem svg_of_multiple (s : Sprite.t) (j : Z) (unit parameters : string)
    (h : heap) :
  Sprite_ok s →
  0 ≤ j →
  (Sprite.dim s).1 * (j + 1) ≤ 2 ^ 53 → (Sprite.dim s).2 * (j + 1) ≤ 2 ^ 53 →
  Sprite.svg fractionString s
    (Num (inject_Z ((Sprite.dim s).1 * j))) (Num (inject_Z ((Sprite.dim s).2 * j)))
    unit parameters h
  = Sprite.svgScale fractionString s (Num (inject_Z (j + 1))) unit parameters h.
Proof.
  intros (Hw & Hh & _) Hj Hx Hy.
  unfold Sprite.dim in *. unfold Sprite.svg, Sprite.svgScale. cbv zeta.
  rewrite !rounded_size by nia.
  rewrite !ofZ_exact, !mul_exact by nia.
  rewrite !(Z.mul_comm _ j), !Z.rem_mul by lia.
  do 2 f_equal; do 2 f_equal; lia.
Qed.

(** X19. For an integer requested height that is not negative and of the
    range where the double arithmetic of the code is exact,
    [svgHeight(height)] renders at the height
    [height + dimY - (height % dimY)], which is the grid height times
    [height ÷ dimY + 1], and at the width that is the double product of the
    double quotient [dimX / dimY] and that height: for a requested height that
    is not a multiple of the grid height the rendered height is the least
    multiple of the grid height that is at least the requested one, and for a
    multiple of the grid height it is the requested height plus [dimY]. *)
Theorem svgHeight_rounding (s : Sprite.t) (height : Z) (unit parameters : string)
    (h : heap) :
  Sprite_ok s →
  0 ≤ height → height + (Sprite.dim s).2 ≤ 2 ^ 53 →
  Sprite.svgHeight fractionString s (Num (inject_Z height)) unit parameters h
  = Sprite.svgExact fractionString s
      (Number.mul
         (Number.div (Number.ofZ (Sprite.dim s).1) (Number.ofZ (Sprite.dim s).2))
         (Num (inject_Z ((Sprite.dim s).2 * (Z.quot height (Sprite.dim s).2 + 1)))))
      (Num (inject_Z ((Sprite.dim s).2 * (Z.quot height (Sprite.dim s).2 + 1))))
      unit parameters h ∧
  (Z.rem height (Sprite.dim s).2 ≠ 0 →
   leastMultipleGe (Sprite.dim s).2 height
     ((Sprite.dim s).2 * (Z.quot height (Sprite.dim s).2 + 1))) ∧
  (Z.rem height (Sprite.dim s).2 = 0 →
   (Sprite.dim s).2 * (Z.quot height (Sprite.dim s).2 + 1)
   = height + (Sprite.dim s).2).
Proof.
  intros (Hw & Hh & _) Hpos Hmax. unfold Sprite.dim in *.
  set (d := (Sprite._dim s).2) in *.
  split; [|split].
  - unfold Sprite.svgHeight. cbv zeta. fold d.
    by rewrite !rounded_size, !rounded_quot by lia.
  - intros Hrem.
    pose proof (Z.rem_bound_pos height d Hpos Hh) as Hb.
    pose proof (Z.quot_rem' height d) as Hdiv.
    split; [|split].
    + exists (Z.quot height d + 1). lia.
    + lia.
    + intros m' [k ->] Hge. assert (Z.quot height d < k) by nia. nia.
  - intros Hrem. rewrite <- rounded_quot. lia.
Qed.

End MoreRendering.

(** Scenarios of the properties of the rendering. *)

Lemma svgScale_markup_witness :
  let s := Sprite.mk (2, 1) [RED; GREEN] [] false in
  Sprite_ok s ∧
  (Sprite.dim s).1 ≤ 2 ^ 53 ∧ (Sprite.dim s).2 ≤ 2 ^ 53 ∧
  - 2 ^ 53 ≤ (Sprite.dim s).1 * 8 ≤ 2 ^ 53 ∧
  - 2 ^ 53 ≤ (Sprite.dim s).2 * 8 ≤ 2 ^ 53 ∧
  @Sprite.svgScale scenarioConversions scenarioFraction s (Num (inject_Z 8))
    "px" "id" 3%nat
  = (Return
       (("<svg " +:+ "id" +:+ " width=" +:+ dq +:+ "16" +:+ "px" +:+ dq
         +:+ " height=" +:+ dq +:+ "8" +:+ "px" +:+ dq
         +:+ " viewBox=" +:+ dq +:+ "0, 0, 2, 1" +:+ dq +:+ ">")
        +:+ joined (@svgRects scenarioConversions s) +:+ "</svg>"),
     5%nat).
Proof.
  intros s.
  assert (Sprite_ok s) as Hok by (repeat split; reflexivity).
  assert ((Sprite.dim s).1 ≤ 2 ^ 53) as Hx by (simpl; lia).
  assert ((Sprite.dim s).2 ≤ 2 ^ 53) as Hy by (simpl; lia).
  assert (- 2 ^ 53 ≤ (Sprite.dim s).1 * 8 ≤ 2 ^ 53) as Hxk by (simpl; lia).
  assert (- 2 ^ 53 ≤ (Sprite.dim s).2 * 8 ≤ 2 ^ 53) as Hyk by (simpl; lia).
  split; [exact Hok|]. split; [exact Hx|]. split; [exact Hy|].
  split; [exact Hxk|]. split; [exact Hyk|].
  exact (@svgScale_markup scenarioConversions scenarioFraction s 8 "px" "id"
           3%nat Hok Hx Hy Hxk Hyk).
Defined.

Lemma svg_rounding_witness :
  let s := Sprite.mk (2, 3) [RED; GREEN; BLUE; WHITE; RED; GREEN] [] false in
  Sprite_ok s ∧
  0 ≤ 5 ∧ 5 + (Sprite.dim s).1 ≤ 2 ^ 53 ∧
  0 ≤ 6 ∧ 6 + (Sprite.dim s).2 ≤ 2 ^ 53 ∧
  @Sprite.svg scenarioConversions scenarioFraction s (Num (inject_Z 5))
    (Num (inject_Z 6)) "px" "id" 3%nat
  = @Sprite.svgExact scenarioConversions scenarioFraction s (Num (inject_Z 6))
      (Num (inject_Z 9)) "px" "id" 3%nat.
Proof.
  intros s.
  assert (Sprite_ok s) as Hok by (repeat split; reflexivity).
  assert (0 ≤ 5) as Hw by lia.
  assert (5 + (Sprite.dim s).1 ≤ 2 ^ 53) as Hwmax by (simpl; lia).
  assert (0 ≤ 6) as Hh by lia.
  assert (6 + (Sprite.dim s).2 ≤ 2 ^ 53) as Hhmax by (simpl; lia).
  split; [exact Hok|]. split; [exact Hw|]. split; [exact Hwmax|].
  split; [exact Hh|]. split; [exact Hhmax|].
  exact (proj1 (@svg_rounding scenarioConversions scenarioFraction s 5 6 "px"
                  "id" 3%nat Hok Hw Hwmax Hh Hhmax)).
Defined.

Lemma svg_of_multiple_witness :
  let s := Sprite.mk (2, 3) [RED; GREEN; BLUE; WHITE; RED; GREEN] [] false in
  Sprite_ok s ∧
  0 ≤ 2 ∧
  (Sprite.dim s).1 * (2 + 1) ≤ 2 ^ 53 ∧ (Sprite.dim s).2 * (2 + 1) ≤ 2 ^ 53 ∧
  @Sprite.svg scenarioConversions scenarioFraction s (Num (inject_Z 4))
    (Num (inject_Z 6)) "px" "id" 3%nat
  = @Sprite.svgScale scenarioConversions scenarioFraction s (Num (inject_Z 3))
      "px" "id" 3%nat.
Proof.
  intros s.
  assert (Sprite_ok s) as Hok by (repeat split; reflexivity).
  assert (0 ≤ 2) as Hj by lia.
  assert ((Sprite.dim s).1 * (2 + 1) ≤ 2 ^ 53) as Hx by (simpl; lia).
  assert ((Sprite.dim s).2 * (2 + 1) ≤ 2 ^ 53) as Hy by (simpl; lia).
  split; [exact Hok|]. split; [exact Hj|]. split; [exact Hx|].
  split; [exact Hy|].
  exact (@svg_of_multiple scenarioConversions scenarioFraction s 2 "px" "id"
           3%nat Hok Hj Hx Hy).
Defined.

Lemma svgHeight_rounding_witness :
  let s := Sprite.mk (2, 3) [RED; GREEN; BLUE; WHITE; RED; GREEN] [] false in
  Sprite_ok s ∧
  0 ≤ 7 ∧ 7 + (Sprite.dim s).2 ≤ 2 ^ 53 ∧
  @Sprite.svgHeight scenarioConversions scenarioFraction s (Num (inject_Z 7))
    "px" "id" 3%nat
  = @Sprite.svgExact scenarioConversions scenarioFraction s
      (Number.mul (Number.div (Number.ofZ 2) (Number.ofZ 3)) (Num (inject_Z 9)))
      (Num (inject_Z 9)) "px" "id" 3%nat ∧
  leastMultipleGe 3 7 9.
Proof.
  intros s.
  assert (Sprite_ok s) as Hok by (repeat split; reflexivity).
  assert (0 ≤ 7) as Hpos by lia.
  assert (7 + (Sprite.dim s).2 ≤ 2 ^ 53) as Hmax by (simpl; lia).
  split; [exact Hok|]. split; [exact Hpos|]. split; [exact Hmax|].
  destruct (@svgHeight_rounding scenarioConversions scenarioFraction s 7 "px"
              "id" 3%nat Hok Hpos Hmax) as (Hrun & Hleast & _).
  split; [exact Hrun|].
  apply Hleast. discriminate.
Defined.

(** Outside the exact range the sizes are rounded as the doubles of the code
    are: on a grid of width 3 the request [2^60] is rendered at [2^60] itself,
    and [3·3002399751580331], which no double holds, is rendered at
    [2^53 + 2] where [svgScale(3002399751580332)] renders at [2^53 + 4]. *)
Example svg_outside_exact_range :
  let s := Sprite.mk (3, 1) [RED; GREEN; BLUE] [] false in
  (∀ h, @Sprite.svg scenarioConversions scenarioFraction s (Num (2 ^ 60)) (Num 0)
          "px" EmptyString h
        = @Sprite.svgExact scenarioConversions scenarioFraction s (Num (2 ^ 60))
            (Num 1) "px" EmptyString h) ∧
  (Sprite.svgWidth_wh s (Number.mul (Num 3) (Num 3002399751580331))).1
  = Num 9007199254740994 ∧
  Number.mul (Number.ofZ (Sprite.dim s).1) (Num 3002399751580332)
  = Num 9007199254740996.
Proof. intros s. split; [intros h; reflexivity|]. split; by vm_compute. Qed.

(** ** The cells of a default grid *)

(** The copies that fill a default grid are numbered one after the other. *)
Lemma fill_copies_oids (n : nat) (color : Color.t) (h : heap) :
  ∃ l, mapM (λ _ : unit, Color.copy color) (replicate n ()) h
       = (Return l, (h + n)%nat) ∧
       length l = n ∧
       ∀ i c, l !! i = Some c → Color.oid c = S (h + i).
Proof.
  revert h. induction n as [|n IH]; intros h.
  - exists []. repeat split; [|intros i c; by rewrite lookup_nil].
    simpl. rewrite run_ret. f_equal. lia.
  - destruct (IH (S h)) as (l & Hrun & Hlen & Hall).
    eexists (_ :: l). repeat split.
    + simpl. rewrite run_bind, run_copy, run_bind, Hrun, run_ret.
      f_equal. lia.
    + simpl. by rewrite Hlen.
    + intros [|i] c' Hc'; simpl in Hc'.
      * injection Hc' as <-. simpl. lia.
      * apply Hall in Hc'. lia.
Qed.

(** X20. A grid synthesised by the constructor holds one object per cell:
    every cell is a copy made during the call, not the fill colour object that
    was passed in, and no two cells share an object. *)
Theorem default_grid_objects (w ht : Z) (fill : option Color.t)
    (pallet : option (list Color.t)) (sym : option bool) (h : heap) :
  0 < w → 0 < ht →
  ∃ s h',
    Sprite.new {| SpriteParams.dim := (w, ht);
                  SpriteParams.array := None;
                  SpriteParams.pallet := pallet;
                  SpriteParams.horizontalSymmetry := sym;
                  SpriteParams.colorFill := fill |} h = (Return s, h') ∧
    (∀ i c, Sprite._array s !! i = Some c → (h < Color.oid c)%nat) ∧
    (∀ i j c c', Sprite._array s !! i = Some c → Sprite._array s !! j = Some c' →
                 i ≠ j → Color.oid c ≠ Color.oid c').
Proof.
  intros Hw Hh.
  assert (∃ color h1,
    match fill with Some c => mret c | None => Color.new 0 0 0 1 end h
    = (Return color, h1) ∧ (h ≤ h1)%nat) as (color & h1 & Hcolor & Hle).
  { destruct fill; eexists _, _; (split; [reflexivity|simpl; lia]). }
  destruct (fill_copies_oids (Z.to_nat (w * ht)) color h1)
    as (arr & Hfill & Hlen & Hoid).
  eexists (Sprite.mk (w, ht) arr _ _), _. split; [|split].
  - unfold Sprite.new; simpl.
    rewrite run_bind, positiveInteger_pos by done.
    rewrite run_bind, positiveInteger_pos by done.
    rewrite run_bind, Hcolor, run_bind, Hfill.
    destruct (Z.eqb_spec (w * ht) (Z.of_nat (length arr))); [reflexivity | lia].
  - simpl. intros i c Hc. apply Hoid in Hc. lia.
  - simpl. intros i j c c' Hc Hc' Hne. apply Hoid in Hc, Hc'. lia.
Qed.

Lemma default_grid_objects_witness :
  0 < 2 ∧ 0 < 2 ∧
  ∃ s h',
    Sprite.new {| SpriteParams.dim := (2, 2);
                  SpriteParams.array := None;
                  SpriteParams.pallet := None;
                  SpriteParams.horizontalSymmetry := None;
                  SpriteParams.colorFill := Some RED |} 4%nat = (Return s, h') ∧
    (∀ i c, Sprite._array s !! i = Some c → (4 < Color.oid c)%nat) ∧
    (∀ i j c c', Sprite._array s !! i = Some c → Sprite._array s !! j = Some c' →
                 i ≠ j → Color.oid c ≠ Color.oid c').
Proof.
  assert (0 < 2) as Hw by lia.
  split; [exact Hw|]. split; [exact Hw|].
  exact (default_grid_objects 2 2 (Some RED) None None 4%nat Hw Hw).
Defined.
